(** * Warping-path processing of PianoConcertoAccompaniment

    A shallow embedding of the warping-path pipeline of the repository:
    - [system_utils.filter_vertical_and_horizontal_segments]
    - [sonify_tools.get_preprocessed_wp], [mix_separate_channels],
      [channel_volume_reweighting], [sonifyWithTSMSync]
    - [eval_tools.parseAnnotationFile], [getGroundTruthTimestamps],
      [calcAlignErrors_single]
    and of the readers of its text files:
    - [system_utils.get_eval_measure_set], [get_scenario_info],
      [get_audio_summary_info], [get_orchestra_start_end_times]
    - [eval_tools.getEvalMeasureSet], [getScenarioIds]

    A 2xN numpy array [align] is represented by the list of its N columns:
    column [i] is the pair [(align[0,i], align[1,i])].  Timestamps are
    rationals: the programs only compare, copy and scale them, and the
    interpolation is stated in exact arithmetic; an entry that is not a
    number, which compares unequal to itself, is outside the model.  Audio
    samples are reals, since loudness balancing takes a square root. *)

From Stdlib Require Import ZArith QArith Qfield Reals Lia Psatz.
From stdpp Require Import base option list gmap sorting.

(** ** Warping paths *)

Module Path.

(** A point of a path, i.e. one column of the 2xN array. *)
Abbreviation Point := (Q * Q)%type.

(** The 2xN array, column by column. *)
Abbreviation Align := (list Point).

(** [x != x_next and y != y_next] on line 207 of system_utils.py. *)
Definition both_differ (p q : Point) : bool :=
  negb (Qeq_bool p.1 q.1) && negb (Qeq_bool p.2 q.2).

(** One iteration of the loop of [filter_vertical_and_horizontal_segments]:
    reads columns [i] and [i+1] and appends column [i] to [new_align] when
    the step is neither horizontal nor vertical.  An index outside the array
    is an [IndexError], here [None]. *)
Definition filter_iter (align : Align) (acc : option Align) (i : nat)
  : option Align :=
  new_align ← acc;
  p ← align !! i;
  p_next ← align !! (i + 1)%nat;
  if both_differ p p_next then Some (new_align ++ [p]) else Some new_align.

(** [filter_vertical_and_horizontal_segments]: the loop runs over
    [range(0, align.shape[1]-1)]; afterwards the last column [align[:, -1]]
    is appended.  On an array with no column the last access fails. *)
Definition filter_vertical_and_horizontal_segments (align : Align)
  : option Align :=
  new_align ← foldl (filter_iter align) (Some []) (seq 0 (length align - 1));
  p_last ← last align;
  Some (new_align ++ [p_last]).

(** The same function by recursion on the columns. *)
Fixpoint filter_rec (align : Align) : Align :=
  match align with
  | [] => []
  | p :: rest =>
      match rest with
      | [] => [p]
      | q :: _ => if both_differ p q then p :: filter_rec rest
                  else filter_rec rest
      end
  end.

(** The test of the loop body at index [i], [false] outside the array. *)
Definition keeps (align : Align) (i : nat) : bool :=
  match align !! i, align !! (i + 1)%nat with
  | Some p, Some q => both_differ p q
  | _, _ => false
  end.

(** Indices [i] of [range(0, N-1)] whose column is kept, in order. *)
Definition kept_indices (align : Align) : list nat :=
  List.filter (keeps align) (seq 0 (length align - 1)).

(** Order predicates on the first coordinate of consecutive columns. *)
Definition t1_nondecreasing (a : Align) : Prop :=
  ∀ i p q, a !! i = Some p → a !! (i + 1)%nat = Some q → (p.1 <= q.1)%Q.

Definition t2_nondecreasing (a : Align) : Prop :=
  ∀ i p q, a !! i = Some p → a !! (i + 1)%nat = Some q → (p.2 <= q.2)%Q.

Definition t1_strictly_increasing (a : Align) : Prop :=
  ∀ i p q, a !! i = Some p → a !! (i + 1)%nat = Some q → (p.1 < q.1)%Q.

(** Strictly increasing first coordinate at every consecutive pair but
    possibly the last one. *)
Definition t1_strictly_increasing_but_last (a : Align) : Prop :=
  ∀ i p q, (i + 2 < length a)%nat →
    a !! i = Some p → a !! (i + 1)%nat = Some q → (p.1 < q.1)%Q.

(** Two points share both coordinates. *)
Definition same_point (p q : Point) : Prop := (p.1 == q.1)%Q ∧ (p.2 == q.2)%Q.

Definition no_repeated_point (a : Align) : Prop :=
  ∀ i p q, a !! i = Some p → a !! (i + 1)%nat = Some q → ¬ same_point p q.

End Path.

(** ** Audio samples

    numpy computes on IEEE doubles.  The model keeps the exact real value of
    every finite sample and the special values a division by zero produces;
    rounding, overflow and the sign of zero are left out. *)

Module Audio.

Inductive xreal : Type :=
  | Fin (r : R)
  | PInf
  | NInf
  | NaN.

Definition is_finite (x : xreal) : Prop :=
  match x with Fin _ => True | _ => False end.

(** Sign of a real as a comparison with zero. *)
Definition Rsign (r : R) : comparison :=
  if Rlt_dec r 0 then Lt else if Rlt_dec 0 r then Gt else Eq.

Definition inf_of_sign (c : comparison) : xreal :=
  match c with Lt => NInf | Gt => PInf | Eq => NaN end.

Definition sign_mul (a b : comparison) : comparison :=
  match a, b with
  | Eq, _ | _, Eq => Eq
  | Lt, Lt | Gt, Gt => Gt
  | _, _ => Lt
  end.

Definition xsign (x : xreal) : option comparison :=
  match x with
  | Fin r => Some (Rsign r)
  | PInf => Some Gt
  | NInf => Some Lt
  | NaN => None
  end.

Definition xadd (x y : xreal) : xreal :=
  match x, y with
  | Fin a, Fin b => Fin (a + b)
  | NaN, _ | _, NaN => NaN
  | PInf, NInf | NInf, PInf => NaN
  | PInf, _ | _, PInf => PInf
  | NInf, _ | _, NInf => NInf
  end.

(** Product: zero times infinity is not a number. *)
Definition xmul (x y : xreal) : xreal :=
  match x, y with
  | Fin a, Fin b => Fin (a * b)
  | _, _ =>
      match xsign x, xsign y with
      | Some a, Some b => inf_of_sign (sign_mul a b)
      | _, _ => NaN
      end
  end.

(** Quotient: [0/0] is not a number, [a/0] is an infinity of the sign of
    [a]. *)
Definition xdiv (x y : xreal) : xreal :=
  match x, y with
  | NaN, _ | _, NaN => NaN
  | Fin a, Fin b =>
      if Req_dec_T b 0 then inf_of_sign (Rsign a) else Fin (a / b)
  | Fin _, _ => Fin 0
  | _, Fin b =>
      match xsign x with
      | Some s => inf_of_sign (sign_mul s (if Rlt_dec b 0 then Lt else Gt))
      | None => NaN
      end
  | _, _ => NaN
  end.

Definition xsqrt (x : xreal) : xreal :=
  match x with
  | Fin r => if Rlt_dec r 0 then NaN else Fin (sqrt r)
  | PInf => PInf
  | _ => NaN
  end.

(** [np.mean]: the sum over the number of samples; of no sample it is
    [0/0]. *)
Definition mean (l : list xreal) : xreal :=
  xdiv (foldr xadd (Fin 0) l) (Fin (INR (length l))).

(** An Nx2 stereo buffer, row by row. *)
Abbreviation Stereo := (list (xreal * xreal)).

(** Mean squared amplitude of a channel, [np.mean(c * c)]. *)
Definition mean_square (c : list xreal) : xreal :=
  mean ((λ s, xmul s s) <$> c).

(** Sum of squares of a channel given by the real values of its samples. *)
Fixpoint sum_sq (rs : list R) : R :=
  match rs with
  | [] => 0
  | r :: rs => r * r + sum_sq rs
  end.

(** [channel_volume_reweighting]: column 1 is overwritten with its samples
    times [sqrt(mse_left / mse_right)], column 0 is left as it is. *)
Definition channel_volume_reweighting (x_stereo : Stereo) : Stereo :=
  let mse_left := mean_square (x_stereo.*1) in
  let mse_right := mean_square (x_stereo.*2) in
  let gain := xsqrt (xdiv mse_left mse_right) in
  (λ row, (row.1, xmul row.2 gain)) <$> x_stereo.

(** [np.pad(c, (0, n))]: [n] zeros after the samples. *)
Definition pad_right (c : list xreal) (n : nat) : list xreal :=
  c ++ replicate n (Fin 0).

(** [mix_separate_channels]. *)
Definition mix_separate_channels (left_channel right_channel : list xreal)
    (reweighted pad : bool) : Stereo :=
  let '(left_channel, right_channel) :=
    if pad then
      if (length right_channel <? length left_channel)%nat then
        (left_channel,
         pad_right right_channel (length left_channel - length right_channel))
      else if (length left_channel <? length right_channel)%nat then
        (pad_right left_channel (length right_channel - length left_channel),
         right_channel)
      else (left_channel, right_channel)
    else (left_channel, right_channel) in
  let N := Nat.min (length left_channel) (length right_channel) in
  let mixed := zip (take N left_channel) (take N right_channel) in
  if reweighted then channel_volume_reweighting mixed else mixed.

End Audio.

(** ** Preparing the path for time-scale modification *)

Module Sonify.
Import Path Audio.

(** [wp * hop_len]: every entry of the array is multiplied. *)
Definition scale (hop_len : Q) (wp : Align) : Align :=
  (λ p, (p.1 * hop_len, p.2 * hop_len)%Q) <$> wp.

(** Elements at positions [0, k, 2k, ...]: [skip] counts how many elements
    are still to be passed over before the next one is taken. *)
Fixpoint stride_from {A : Type} (k skip : nat) (l : list A) : list A :=
  match l with
  | [] => []
  | x :: l' =>
      match skip with
      | O => x :: stride_from k (k - 1) l'
      | S skip' => stride_from k skip' l'
      end
  end.

(** The slice [l[0::step]].  A zero step is a [ValueError]; a negative step
    walks down from index 0 and so yields at most the first element. *)
Definition slice_from0_step {A : Type} (step : Z) (l : list A)
  : option (list A) :=
  if (step =? 0)%Z then None
  else if (step <? 0)%Z then Some (take 1 l)
  else Some (stride_from (Z.to_nat step) 0 l).

(** The slice [wp[:, 1:-1]]. *)
Definition middle (wp : Align) : Align :=
  drop 1 (take (length wp - 1) wp).

(** Lines 36-37 of sonify_tools.py: first column, strided middle, last
    column.  [wp[:,0]] and [wp[:,-1]] fail on an array with no column. *)
Definition downsample_step (wp : Align) (downsample : Z) : option Align :=
  let wp_middle := middle wp in
  first ← head wp;
  mid ← slice_from0_step downsample wp_middle;
  final ← last wp;
  Some ([first] ++ mid ++ [final]).

(** [get_preprocessed_wp]; the argument [wp] is the array stored in
    [align_file]. *)
Definition get_preprocessed_wp (wp : Align) (downsample : Z)
    (hop_len : option Q) : option Align :=
  let wp := match hop_len with
            | None => wp
            | Some h => scale h wp
            end in
  downsample_step wp downsample.

(** [np.flipud] on a 2xN array exchanges the two rows. *)
Definition flipud (wp : Align) : Align := (λ p, (p.2, p.1)) <$> wp.

(** The second argument of the call to [tsm_tools.tsmvar_hybrid] on line
    109 of sonify_tools.py. *)
Definition tsm_warping_path (wp : Align) (downsample : Z)
    (hop_len : option Q) : option Align :=
  wp ← get_preprocessed_wp wp downsample hop_len;
  wp ← filter_vertical_and_horizontal_segments wp;
  Some (flipud wp).

(** The loaded path in seconds, lines 31-35 of sonify_tools.py. *)
Definition to_seconds (wp : Align) (hop_len : option Q) : Align :=
  match hop_len with
  | None => wp
  | Some h => scale h wp
  end.

(** For comparison only, the transforms in the order load, filter,
    downsample; no function of the repository composes them this way. *)
Definition filter_then_downsample (wp : Align) (downsample : Z)
    (hop_len : option Q) : option Align :=
  let wp := to_seconds wp hop_len in
  wp ← filter_vertical_and_horizontal_segments wp;
  wp ← downsample_step wp downsample;
  Some (flipud wp).

Section sonify.
(** The time-scale modification operator of [hmc_mir.tsm_tools], an
    external capability. *)
Variable tsmvar_hybrid : list xreal → Align → list xreal.

(** [sonifyWithTSMSync]; [y1] and [y2] are the loaded waveforms.  Writing
    the output file does not change the returned buffer. *)
Definition sonifyWithTSMSync (y1 y2 : list xreal) (wp : Align)
    (downsample : Z) (hop_len : option Q) : option Stereo :=
  wp ← get_preprocessed_wp wp downsample hop_len;
  wp ← filter_vertical_and_horizontal_segments wp;
  let y2_tsm := tsmvar_hybrid y2 (flipud wp) in
  Some (mix_separate_channels y1 y2_tsm true false).
End sonify.

End Sonify.

(** ** Evaluation against ground truth *)

Module EvalTools.
Import Path.

(** A beat annotation file: its rows [(start, measure)] in file order. *)
Abbreviation AnnotRows := (list (Q * Z)).

(** [parseAnnotationFile]: a dictionary from measure number to timestamp;
    a later row overwrites an earlier one with the same measure. *)
Definition parseAnnotationFile (annotfile : AnnotRows) : gmap Z Q :=
  foldl (λ d row, <[row.2 := row.1]> d) ∅ annotfile.

(** [sorted(s)] on a set of integers. *)
Definition sorted (s : gset Z) : list Z := merge_sort Z.le (elements s).

(** [getGroundTruthTimestamps]; [allEvalMeasures] is the set returned by
    [getEvalMeasureSet].  A dictionary access with a missing key is a
    [KeyError], here [None]. *)
Definition getGroundTruthTimestamps (annotfile1 annotfile2 : AnnotRows)
    (allEvalMeasures : gset Z) : option (list (Q * Q) * list Z) :=
  let gt1 := parseAnnotationFile annotfile1 in
  let gt2 := parseAnnotationFile annotfile2 in
  let eval_measures := sorted (dom gt1 ∩ dom gt2 ∩ allEvalMeasures) in
  eval_pts ← mapM (λ m, t1 ← gt1 !! m; t2 ← gt2 !! m; Some (t1, t2))
                  eval_measures;
  Some (eval_pts, eval_measures).

(** *** numpy.interp

    [np.interp(x, xp, fp)] with the default [left = fp[0]] and
    [right = fp[-1]], as numpy documents and implements it for increasing
    sample points [xp]: below [xp[0]] the value is [fp[0]], above [xp[-1]]
    it is [fp[-1]], and for [xp[j] <= x < xp[j+1]] it is
    [slope * (x - xp[j]) + fp[j]] with
    [slope = (fp[j+1] - fp[j]) / (xp[j+1] - xp[j])].  numpy finds [j] by
    bisection; the scan below finds the same [j] on increasing [xp]. *)

(** [x < y] by the boolean test on rationals. *)
Definition Qlt_bool (x y : Q) : bool := negb (Qle_bool y x).

(** [x], already known to be at least the abscissa of [p], against the
    sample points after [p]. *)
Fixpoint interp_from (x : Q) (p : Point) (rest : list Point) : Q :=
  match rest with
  | [] => p.2
  | q :: rest' =>
      if Qlt_bool x q.1 then
        if Qeq_bool p.1 x then p.2
        else ((q.2 - p.2) / (q.1 - p.1) * (x - p.1) + p.2)%Q
      else interp_from x q rest'
  end.

Definition interp1 (samples : list Point) (x : Q) : option Q :=
  first ← head samples;
  final ← last samples;
  if Qlt_bool final.1 x then Some final.2
  else if Qlt_bool x first.1 then Some first.2
  else Some (interp_from x first (tail samples)).

(** The vectorised call; an empty [xp] and [xp], [fp] of different lengths
    are [ValueError]s. *)
Definition np_interp (xs xp fp : list Q) : option (list Q) :=
  if (length xp =? 0)%nat then None
  else if negb (length xp =? length fp)%nat then None
  else mapM (interp1 (zip xp fp)) xs.

(** [22050/512], frames per second. *)
Definition frame_rate : Q := 22050 # 512.

(** [hypalign / (22050/512)]. *)
Definition frames_to_seconds (hypalign : Align) : Align :=
  (λ p, (p.1 / frame_rate, p.2 / frame_rate)%Q) <$> hypalign.

(** [calcAlignErrors_single]; [hypalign] is the array stored in [hypfile].
    [gt[:,0]] needs a two-dimensional [gt], and [np.array([])] is
    one-dimensional: with no evaluated measure the column access fails. *)
Definition calcAlignErrors_single (hypalign : Align)
    (annotfile1 annotfile2 : AnnotRows) (allEvalMeasures : gset Z)
    (frames : bool) : option (list Q * list Z) :=
  '(gt, measNums) ← getGroundTruthTimestamps annotfile1 annotfile2
                                             allEvalMeasures;
  let hypalign := if frames then frames_to_seconds hypalign else hypalign in
  match gt with
  | [] => None
  | _ =>
      pred ← np_interp (gt.*1) (hypalign.*1) (hypalign.*2);
      let err := zip_with Qminus pred (gt.*2) in
      Some (err, measNums)
  end.

(** What linear interpolation over the path [samples] prescribes for the
    anchor [x]. *)
Definition interpolates (samples : Align) (x v : Q) : Prop :=
  (∀ first, head samples = Some first → (x < first.1)%Q → v = first.2) ∧
  (∀ final, last samples = Some final → (final.1 < x)%Q → v = final.2) ∧
  (∀ j p q, samples !! j = Some p → samples !! (j + 1)%nat = Some q →
     (p.1 <= x)%Q → (x <= q.1)%Q →
     (v == p.2 + (x - p.1) * ((q.2 - p.2) / (q.1 - p.1)))%Q).

End EvalTools.

(** ** Further predicates on paths *)

Module PathOrder.
Import Path.

Definition t2_strictly_increasing (a : Align) : Prop :=
  ∀ i p q, a !! i = Some p → a !! (i + 1)%nat = Some q → (p.2 < q.2)%Q.

(** Every step of the path changes both coordinates. *)
Definition all_steps_diagonal (a : Align) : Prop :=
  ∀ i p q, a !! i = Some p → a !! (i + 1)%nat = Some q →
           both_differ p q = true.

(** The conversion factor, when there is one, is not negative. *)
Definition hop_nonnegative (hop_len : option Q) : Prop :=
  match hop_len with
  | Some h => (0 <= h)%Q
  | None => True
  end.

End PathOrder.

(** ** The evaluation measures file *)

From Stdlib Require Import Ascii.
From stdpp Require Import strings.

Module EvalMeasures.

(** [s.split(sep)] for a one-character separator: the pieces between the
    occurrences of [sep], empty pieces included; never the empty list. *)
Fixpoint split (sep : Ascii.ascii) (s : string) : list string :=
  match s with
  | EmptyString => [EmptyString]
  | String c s' =>
      if Ascii.eqb c sep then EmptyString :: split sep s'
      else match split sep s' with
           | piece :: pieces => String c piece :: pieces
           | [] => [String c EmptyString]
           end
  end.

Section builtins.
(** [str.strip] and [int] of Python; [int] raises [ValueError] on a string
    that is not an integer literal, here [None]. *)
Variable strip : string → string.
Variable int : string → option Z.

(** [startMeasure, endMeasure = parts[i].split('-')] followed by the two
    conversions: the unpacking raises unless there are exactly two
    pieces. *)
Definition parse_range (field : string) : option (Z * Z) :=
  match split "-"%char field with
  | [a; b] =>
      startMeasure ← int a;
      endMeasure ← int b;
      Some (startMeasure, endMeasure)
  | _ => None
  end.

(** [for j in range(startMeasure, endMeasure+1): d[j] = 1]. *)
Definition add_range (d : gmap Z Z) (r : Z * Z) : gmap Z Z :=
  foldl (λ d j, <[j := 1%Z]> d) d (seqZ r.1 (r.2 + 1 - r.1)).

(** The body of the loop over [range(1, len(parts))]. *)
Definition add_field (d : option (gmap Z Z)) (field : string)
  : option (gmap Z Z) :=
  d ← d;
  r ← parse_range field;
  Some (add_range d r).

(** The body of the loop over the lines of the file. *)
Definition add_line (mov_id : string) (d : option (gmap Z Z))
    (line : string) : option (gmap Z Z) :=
  d ← d;
  match split ","%char (strip line) with
  | [] => None
  | id :: fields =>
      if bool_decide (id = mov_id) then foldl add_field (Some d) fields
      else Some d
  end.

(** [get_eval_measure_set]; [file] holds the lines of
    [EVAL_MEASURES_FILE]. *)
Definition get_eval_measure_set (file : list string) (mov_id : string)
  : option (gset Z) :=
  d ← foldl (add_line mov_id) (Some ∅) file;
  Some (dom d).

End builtins.

End EvalMeasures.

(** ** Scenario files *)

Module Scenario.
Import EvalMeasures.

(** The fields of one scenario, in the order of the columns of the file. *)
Record scenario : Type := {
  p : string;
  o : string;
  po : string;
  measStart : Z;
  measEnd : Z;
  pStart : Q;
  pEnd : Q;
  oStart : Q;
  oEnd : Q
}.

(** What [get_scenario_info] returns: the dictionary of the one scenario,
    with its key ['scenario_id'], or the dictionary from scenario id to
    scenario.  A Python dictionary keeps its keys in the order of their
    first insertion, hence the association list. *)
Inductive scenario_info : Type :=
  | InfoFile (scenario_id : string) (s : scenario)
  | SummaryFile (d : list (string * scenario)).

(** [d[k] = v] on a dictionary in insertion order: the value of a key that
    is present is replaced where it stands, a new key goes to the end. *)
Fixpoint dict_set {V : Type} (d : list (string * V)) (k : string) (v : V)
  : list (string * V) :=
  match d with
  | [] => [(k, v)]
  | (k', v') :: d' =>
      if bool_decide (k' = k) then (k, v) :: d'
      else (k', v') :: dict_set d' k v
  end.

(** [d[k]], a [KeyError] when the key is absent. *)
Fixpoint dict_get {V : Type} (d : list (string * V)) (k : string)
  : option V :=
  match d with
  | [] => None
  | (k', v) :: d' => if bool_decide (k' = k) then Some v else dict_get d' k
  end.

(** The distinct elements of a list in the order of their first
    occurrence. *)
Definition first_occurrences (l : list string) : list string :=
  reverse (remove_dups (reverse l)).

(** [sep.join(pieces)]. *)
Fixpoint join (sep : string) (pieces : list string) : string :=
  match pieces with
  | [] => EmptyString
  | [piece] => piece
  | piece :: pieces' =>
      String.append piece (String.append sep (join sep pieces'))
  end.

(** ['_'.join(o_basename.split('_')[0:2])] in [getEvalMeasureSet]. *)
Definition mov_id_of (o_basename : string) : string :=
  join "_"%string (take 2 (split "_"%char o_basename)).

(** The keys of the dictionary of an info file, in insertion order. *)
Definition info_keys : list string :=
  [ "p"%string; "o"%string; "po"%string; "measStart"%string;
    "measEnd"%string; "pStart"%string; "pEnd"%string; "oStart"%string;
    "oEnd"%string; "scenario_id"%string ].

Section builtins.
(** Python's [str.strip], [str.split] without argument, [int] and [float],
    and [os.path.basename] and the root given by [os.path.splitext]; a
    conversion that raises is [None]. *)
Variable strip : string → string.
Variable split_whitespace : string → list string.
Variable int : string → option Z.
Variable float : string → option Q.
Variable basename : string → string.
Variable splitext_root : string → string.

(** The body of the loop of [get_scenario_info] on one line: the scenario
    id and the nine fields.  A missing column is an [IndexError]. *)
Definition parse_line (line : string) : option (string * scenario) :=
  let parts := split_whitespace (strip line) in
  sid ← parts !! 0%nat;
  f1 ← parts !! 1%nat;
  f2 ← parts !! 2%nat;
  f3 ← parts !! 3%nat;
  f4 ← parts !! 4%nat ≫= int;
  f5 ← parts !! 5%nat ≫= int;
  f6 ← parts !! 6%nat ≫= float;
  f7 ← parts !! 7%nat ≫= float;
  f8 ← parts !! 8%nat ≫= float;
  f9 ← parts !! 9%nat ≫= float;
  Some (sid, {| p := f1; o := f2; po := f3; measStart := f4; measEnd := f5;
                pStart := f6; pEnd := f7; oStart := f8; oEnd := f9 |}).

(** The loop: the dictionary so far and the variable [sid], unbound before
    the first line. *)
Definition scenario_step
    (acc : option (list (string * scenario) * option string))
    (line : string) : option (list (string * scenario) * option string) :=
  st ← acc;
  '(sid, s) ← parse_line line;
  Some (dict_set st.1 sid s, Some sid).

(** [get_scenario_info]; [infile] holds the lines of the file. *)
Definition get_scenario_info (infile : list string) : option scenario_info :=
  st ← foldl scenario_step (Some ([], None)) infile;
  if (length st.1 =? 1)%nat then
    sid ← st.2;
    s ← dict_get st.1 sid;
    Some (InfoFile sid s)
  else Some (SummaryFile st.1).

(** [getScenarioIds]: [list(d.keys())] of what [get_scenario_info] returns
    for the summary file. *)
Definition getScenarioIds (summary_file : list string)
  : option (list string) :=
  d ← get_scenario_info summary_file;
  match d with
  | SummaryFile d => Some (d.*1)
  | InfoFile _ _ => Some info_keys
  end.

(** [getEvalMeasureSet]: [d['o']] is the orchestra file path in the
    dictionary of an info file; in the dictionary of a summary file it is a
    missing key or a nested dictionary, on which [os.path.basename]
    raises. *)
Definition getEvalMeasureSet (scenarioInfo measures_file : list string)
  : option (gset Z) :=
  d ← get_scenario_info scenarioInfo;
  match d with
  | InfoFile _ s =>
      let o_basename := splitext_root (basename (o s)) in
      get_eval_measure_set strip int measures_file (mov_id_of o_basename)
  | SummaryFile _ => None
  end.

(** [t.split('-')], the assertion that there are two parts, and the two
    conversions, in [get_audio_summary_info]. *)
Definition parse_timestamps (t : string) : option (Q * Q) :=
  match split "-"%char t with
  | [a; b] =>
      tStart ← float a;
      tEnd ← float b;
      Some (tStart, tEnd)
  | _ => None
  end.

(** The body of the loop of [get_audio_summary_info] on one row
    [(id, timestamps)] of the summary; an absent cell ([pd.isna]) is
    [None]. *)
Definition summary_step (acc : option (gmap string (option (Q * Q))))
    (row : string * option string)
  : option (gmap string (option (Q * Q))) :=
  d ← acc;
  match row.2 with
  | None => Some (<[row.1 := None]> d)
  | Some t =>
      ts ← parse_timestamps t;
      Some (<[row.1 := Some ts]> d)
  end.

(** [get_audio_summary_info]; [rows] are the rows of
    [AUDIO_SUMMARY_FILE]. *)
Definition get_audio_summary_info (rows : list (string * option string))
  : option (gmap string (option (Q * Q))) :=
  foldl summary_step (Some ∅) rows.

(** [get_orchestra_start_end_times]; the two arguments are the lines of
    [scenario.info] and the rows of the summary.  A recording without
    timestamps raises the exception of line 53, a recording that is not in
    the summary a [KeyError]. *)
Definition get_orchestra_start_end_times
    (scenario_info_file : list string)
    (rows : list (string * option string)) : option (Q * Q) :=
  si ← get_scenario_info scenario_info_file;
  match si with
  | InfoFile _ s =>
      let orch_id := splitext_root (basename (o s)) in
      d ← get_audio_summary_info rows;
      let o_basename := String.append orch_id ".wav" in
      entry ← d !! o_basename;
      entry
  | SummaryFile _ => None
  end.

End builtins.

End Scenario.

(** * Properties *)

(** ** Generalities on consecutive elements *)

Section consecutive.
Context {A : Type} (R : A → A → Prop).

Lemma consecutive_Sorted (l : list A) :
  (∀ i p q, l !! i = Some p → l !! (i + 1)%nat = Some q → R p q)
  ↔ Sorted R l.
Proof.
  split.
  - induction l as [|x l IH]; intros H; constructor.
    + apply IH. intros i p q Hp Hq. apply (H (S i)); done.
    + destruct l as [|y l]; constructor. by apply (H 0%nat).
  - induction 1 as [|x l Hs IH Hd]; intros i p q Hp Hq; [done|].
    destruct i as [|i]; simpl in *.
    + destruct Hd; simplify_eq/=. done.
    + by apply (IH i).
Qed.
End consecutive.

Module PathFacts.
Import Path.

Lemma both_differ_true (p q : Point) :
  both_differ p q = true ↔ ¬ (p.1 == q.1)%Q ∧ ¬ (p.2 == q.2)%Q.
Proof.
  unfold both_differ. rewrite andb_true_iff, !negb_true_iff.
  rewrite <- !not_true_iff_false, !Qeq_bool_iff. done.
Qed.

Lemma both_differ_false (p q : Point) :
  both_differ p q = false ↔ (p.1 == q.1)%Q ∨ (p.2 == q.2)%Q.
Proof.
  rewrite <- not_true_iff_false, both_differ_true.
  destruct (Qeq_dec p.1 q.1), (Qeq_dec p.2 q.2); tauto.
Qed.

(** The loop, started in the middle of the array, against the recursion on
    the columns still to visit. *)
Lemma filter_loop_rec (align : Align) (suf pre acc : Align) :
  align = pre ++ suf → suf ≠ [] →
  (new_align ← foldl (filter_iter align) (Some acc)
                 (seq (length pre) (length suf - 1));
   p_last ← last align;
   Some (new_align ++ [p_last])) = Some (acc ++ filter_rec suf).
Proof.
  revert pre acc. induction suf as [|p suf IH]; intros pre acc Ha Hne; [done|].
  destruct suf as [|q suf].
  - subst align. simpl. by rewrite last_snoc.
  - assert (align !! length pre = Some p) as Hp.
    { subst align. by apply list_lookup_middle. }
    assert (align !! (length pre + 1)%nat = Some q) as Hq.
    { subst align. rewrite lookup_app_r by lia.
      by replace (length pre + 1 - length pre)%nat with 1%nat by lia. }
    assert (align = (pre ++ [p]) ++ q :: suf) as Ha'
      by (by rewrite <- app_assoc).
    pose proof (λ acc', IH (pre ++ [p]) acc' Ha' ltac:(done)) as IH'.
    rewrite length_app in IH'. simpl in IH'. rewrite Nat.sub_0_r in IH'.
    simpl. rewrite Hp; simpl. rewrite Hq; simpl.
    replace (length pre + 1)%nat with (S (length pre)) in * by lia.
    destruct (both_differ p q).
    + rewrite IH'. by rewrite <- app_assoc.
    + by rewrite IH'.
  Qed.

Lemma filter_is_rec (align : Align) :
  align ≠ [] →
  filter_vertical_and_horizontal_segments align = Some (filter_rec align).
Proof.
  intros Hne. unfold filter_vertical_and_horizontal_segments.
  exact (filter_loop_rec align align [] [] eq_refl Hne).
Qed.

Lemma filter_empty : filter_vertical_and_horizontal_segments [] = None.
Proof. reflexivity. Qed.

(** What the loop collects from a list of in-range indices. *)
Lemma filter_loop_kept (align : Align) (l : list nat) (acc : Align) :
  Forall (λ i, i + 1 < length align)%nat l →
  ∃ kept, foldl (filter_iter align) (Some acc) l = Some (acc ++ kept) ∧
          Forall2 (λ i p, align !! i = Some p)
                  (List.filter (keeps align) l) kept.
Proof.
  revert acc. induction l as [|i l IH]; intros acc Hl.
  - exists []. split; [by rewrite app_nil_r | constructor].
  - apply Forall_cons in Hl as [Hi Hl].
    destruct (lookup_lt_is_Some_2 align i) as [p Hp]; [lia|].
    destruct (lookup_lt_is_Some_2 align (i + 1)) as [q Hq]; [lia|].
    simpl. unfold keeps. rewrite Hp, Hq. simpl.
    destruct (both_differ p q).
    + destruct (IH (acc ++ [p]) Hl) as (kept & -> & HF).
      exists (p :: kept). split; [by rewrite <- app_assoc | by constructor].
    + destruct (IH acc Hl) as (kept & -> & HF). by exists kept.
Qed.

Lemma StronglySorted_lt_seq (j n : nat) : StronglySorted lt (seq j n).
Proof.
  revert j. induction n as [|n IH]; intros j; simpl; constructor; [done|].
  apply Forall_forall. intros k Hk. apply elem_of_seq in Hk. lia.
Qed.

Lemma StronglySorted_list_filter {A} (R : A → A → Prop) (f : A → bool) l :
  StronglySorted R l → StronglySorted R (List.filter f l).
Proof.
  induction 1 as [|x l Hs IH Hx]; simpl; [constructor|].
  destruct (f x); [|done]. constructor; [done|].
  apply Forall_forall. intros y Hy. rewrite Forall_forall in Hx.
  apply Hx. apply list_elem_of_In. apply list_elem_of_In, filter_In in Hy.
  tauto.
Qed.

Lemma elem_of_kept_indices (align : Align) (i : nat) :
  i ∈ kept_indices align ↔
  (i + 2 ≤ length align)%nat ∧
  ∃ p q, align !! i = Some p ∧ align !! (i + 1)%nat = Some q ∧
         ¬ (p.1 == q.1)%Q ∧ ¬ (p.2 == q.2)%Q.
Proof.
  unfold kept_indices. rewrite list_elem_of_In, filter_In, <- list_elem_of_In.
  rewrite elem_of_seq. unfold keeps. split.
  - intros [Hi Hk]. split; [lia|].
    destruct (align !! i) as [p|]; [|done].
    destruct (align !! (i + 1)%nat) as [q|]; [|done].
    exists p, q. by rewrite <- both_differ_true.
  - intros [Hi (p & q & -> & -> & Hd)]. split; [lia|].
    by apply both_differ_true.
Qed.

(** Monotone inputs: the projection [f] is either coordinate. *)
Section monotone.
Variable f : Point → Q.
Hypothesis f_differ : ∀ p q, both_differ p q = true → ¬ (f p == f q)%Q.

Lemma filter_rec_monotone (a : Align) :
  Sorted (λ p q, f p <= f q)%Q a →
  Sorted (λ p q, f p < f q)%Q (filter_rec a) ∧
  ∀ p, head a = Some p →
       ∃ h, head (filter_rec a) = Some h ∧ (f p <= f h)%Q.
Proof.
  induction a as [|p a IH]; intros Hs; [by split; [constructor|]|].
  destruct a as [|q a].
  - simpl. split; [repeat constructor|].
    intros ? [= <-]. eexists; split; [done | apply Qle_refl].
  - apply Sorted_inv in Hs as [Hs Hd]. apply HdRel_inv in Hd.
    destruct (IH Hs) as [Hsorted Hhead].
    destruct (Hhead q eq_refl) as (h & Hh & Hqh).
    change (filter_rec (p :: q :: a)) with
      (if both_differ p q then p :: filter_rec (q :: a)
       else filter_rec (q :: a)).
    destruct (both_differ p q) eqn:E.
    + split.
      * constructor; [done|].
        destruct (filter_rec (q :: a)) as [|h' r]; simplify_eq/=.
        constructor. apply Qlt_le_trans with (f q); [|done].
        apply Qle_lteq in Hd as [Hd|Hd]; [done|].
        by apply f_differ in E.
      * intros ? [= <-]. exists p. split; [done | apply Qle_refl].
    + split; [done|]. intros ? [= <-]. exists h. split; [done|].
      by apply Qle_trans with (f q).
Qed.
End monotone.

Lemma filter_rec_nil (a : Align) : filter_rec a = [] → a = [].
Proof.
  induction a as [|p a IH]; [done|]. destruct a as [|q a]; [done|].
  change (filter_rec (p :: q :: a)) with
    (if both_differ p q then p :: filter_rec (q :: a)
     else filter_rec (q :: a)).
  destruct (both_differ p q); [done|]. intros H. by apply IH in H.
Qed.

Lemma filter_rec_last (a : Align) : last (filter_rec a) = last a.
Proof.
  induction a as [|p a IH]; [done|]. destruct a as [|q a]; [done|].
  change (filter_rec (p :: q :: a)) with
    (if both_differ p q then p :: filter_rec (q :: a)
     else filter_rec (q :: a)).
  change (last (p :: q :: a)) with (last (q :: a)). rewrite <- IH.
  destruct (both_differ p q); [|done].
  destruct (filter_rec (q :: a)) eqn:E; [|done].
  by apply filter_rec_nil in E.
Qed.

Lemma t1_nondecreasing_Sorted (a : Align) :
  t1_nondecreasing a ↔ Sorted (λ p q, p.1 <= q.1)%Q a.
Proof. exact (consecutive_Sorted _ a). Qed.

Lemma t2_nondecreasing_Sorted (a : Align) :
  t2_nondecreasing a ↔ Sorted (λ p q, p.2 <= q.2)%Q a.
Proof. exact (consecutive_Sorted _ a). Qed.

Lemma t1_strictly_increasing_Sorted (a : Align) :
  t1_strictly_increasing a ↔ Sorted (λ p q, p.1 < q.1)%Q a.
Proof. exact (consecutive_Sorted _ a). Qed.

(** Sortedness of a path given by its points. *)
Ltac sorted_points :=
  repeat (apply Sorted_cons || apply Sorted_nil || apply HdRel_cons
          || apply HdRel_nil); simpl; lra.

Lemma nonempty_of_length (a : Align) : (2 ≤ length a)%nat → a ≠ [].
Proof. by destruct a; simpl; [lia|]. Qed.

End PathFacts.

(** ** PathFilter *)

Module PathFilter.
Import Path PathFacts.

(** C2.  On a path of N >= 2 points the filter returns the points whose
    index is in [kept_indices], in order, followed by the last point.  The
    kept indices are increasing, and an index [i] is kept if and only if
    [i <= N-2] and point [i+1] differs from point [i] in both coordinates.
    The last point of the output is the last point of the input. *)
Theorem filter_keeps_iff_diagonal (align : Align) :
  (2 ≤ length align)%nat →
  ∃ kept p_last,
    filter_vertical_and_horizontal_segments align = Some (kept ++ [p_last]) ∧
    last align = Some p_last ∧
    Forall2 (λ i p, align !! i = Some p) (kept_indices align) kept ∧
    StronglySorted lt (kept_indices align) ∧
    (∀ i, i ∈ kept_indices align ↔
          (i + 2 ≤ length align)%nat ∧
          ∃ p q, align !! i = Some p ∧ align !! (i + 1)%nat = Some q ∧
                 ¬ (p.1 == q.1)%Q ∧ ¬ (p.2 == q.2)%Q) ∧
    last (kept ++ [p_last]) = last align.
Proof.
  intros HN.
  destruct (filter_loop_kept align (seq 0 (length align - 1)) [])
    as (kept & Hloop & HF).
  { apply Forall_forall. intros i Hi. apply elem_of_seq in Hi. lia. }
  destruct (last align) as [p_last|] eqn:Hlast.
  2:{ apply last_None in Hlast. subst align. simpl in HN. lia. }
  exists kept, p_last. split_and!.
  - unfold filter_vertical_and_horizontal_segments.
    rewrite Hloop, Hlast. done.
  - done.
  - done.
  - apply StronglySorted_list_filter, StronglySorted_lt_seq.
  - apply elem_of_kept_indices.
  - by rewrite last_snoc.
Qed.

Lemma filter_keeps_iff_diagonal_witness :
  let align := [(0, 0); (1, 1); (1, 2); (2, 3)]%Q in
  (2 ≤ length align)%nat ∧
  ∃ kept p_last,
    filter_vertical_and_horizontal_segments align = Some (kept ++ [p_last]) ∧
    last align = Some p_last ∧
    Forall2 (λ i p, align !! i = Some p) (kept_indices align) kept ∧
    StronglySorted lt (kept_indices align) ∧
    (∀ i, i ∈ kept_indices align ↔
          (i + 2 ≤ length align)%nat ∧
          ∃ p q, align !! i = Some p ∧ align !! (i + 1)%nat = Some q ∧
                 ¬ (p.1 == q.1)%Q ∧ ¬ (p.2 == q.2)%Q) ∧
    last (kept ++ [p_last]) = last align.
Proof.
  intros align. split; [simpl; lia|].
  apply (filter_keeps_iff_diagonal align). simpl; lia.
Defined.

Example filter_example :
  filter_vertical_and_horizontal_segments
    [(0, 0); (1, 1); (1, 2); (2, 3)]%Q
  = Some [(0, 0); (1, 2); (2, 3)]%Q.
Proof. reflexivity. Qed.

Example filter_one_point :
  filter_vertical_and_horizontal_segments [(4, 5)]%Q = Some [(4, 5)]%Q.
Proof. reflexivity. Qed.

(** C1, as amended.  When the first coordinate of the input path (N >= 2
    points) never decreases, the first coordinate of the filtered path is
    strictly increasing at every consecutive pair, the trailing one
    included. *)
Theorem filter_t1_strictly_increasing (align : Align) :
  (2 ≤ length align)%nat →
  t1_nondecreasing align →
  ∃ out, filter_vertical_and_horizontal_segments align = Some out ∧
         t1_strictly_increasing out.
Proof.
  intros HN Hmono. exists (filter_rec align). split.
  - by apply filter_is_rec, nonempty_of_length.
  - apply t1_strictly_increasing_Sorted.
    apply (filter_rec_monotone fst).
    + intros p q E. by apply both_differ_true in E as [? ?].
    + by apply t1_nondecreasing_Sorted.
Qed.

Lemma filter_t1_strictly_increasing_witness :
  let align := [(0, 0); (1, 1); (1, 2); (2, 3)]%Q in
  ((2 ≤ length align)%nat ∧ t1_nondecreasing align) ∧
  ∃ out, filter_vertical_and_horizontal_segments align = Some out ∧
         t1_strictly_increasing out.
Proof.
  intros align.
  assert (t1_nondecreasing align) as Hmono.
  { apply t1_nondecreasing_Sorted. subst align. sorted_points. }
  assert (2 ≤ length align)%nat as HN by (simpl; lia).
  split; [done|]. exact (filter_t1_strictly_increasing align HN Hmono).
Defined.

(** C1 as stated fails: on a path whose first coordinate goes down and up
    again every point is kept, and the first pair of the output, which is
    not the trailing pair, is decreasing. *)
Lemma filter_t1_counterexample :
  filter_vertical_and_horizontal_segments [(2, 2); (1, 1); (3, 3)]%Q
  = Some [(2, 2); (1, 1); (3, 3)]%Q ∧
  ¬ t1_strictly_increasing_but_last [(2, 2); (1, 1); (3, 3)]%Q.
Proof.
  split; [reflexivity|]. intros H.
  specialize (H 0%nat (2, 2)%Q (1, 1)%Q). simpl in H.
  specialize (H ltac:(lia) eq_refl eq_refl). lra.
Qed.

(** C9, as amended.  When the first coordinate of the input path (N >= 2
    points) never decreases, or its second coordinate never decreases, no
    two consecutive points of the filtered path share both coordinates. *)
Theorem filter_no_repeated_point (align : Align) :
  (2 ≤ length align)%nat →
  t1_nondecreasing align ∨ t2_nondecreasing align →
  ∃ out, filter_vertical_and_horizontal_segments align = Some out ∧
         no_repeated_point out.
Proof.
  intros HN Hmono. exists (filter_rec align). split.
  { by apply filter_is_rec, nonempty_of_length. }
  destruct Hmono as [Hmono|Hmono].
  - assert (Sorted (λ p q, p.1 < q.1)%Q (filter_rec align)) as Hs.
    { apply (filter_rec_monotone fst).
      + intros p q E. by apply both_differ_true in E as [? ?].
      + by apply t1_nondecreasing_Sorted. }
    intros i p q Hp Hq [H1 _].
    apply (proj2 (consecutive_Sorted _ _)) with (i := i) (p := p) (q := q)
      in Hs; [|done..].
    simpl in Hs. rewrite H1 in Hs.
    by apply Qlt_irrefl in Hs.
  - assert (Sorted (λ p q, p.2 < q.2)%Q (filter_rec align)) as Hs.
    { apply (filter_rec_monotone snd).
      + intros p q E. by apply both_differ_true in E as [? ?].
      + by apply t2_nondecreasing_Sorted. }
    intros i p q Hp Hq [_ H2].
    apply (proj2 (consecutive_Sorted _ _)) with (i := i) (p := p) (q := q)
      in Hs; [|done..].
    simpl in Hs. rewrite H2 in Hs.
    by apply Qlt_irrefl in Hs.
Qed.

Lemma filter_no_repeated_point_witness :
  let align := [(0, 0); (1, 1); (1, 2); (1, 2); (2, 3)]%Q in
  ((2 ≤ length align)%nat ∧
   (t1_nondecreasing align ∨ t2_nondecreasing align)) ∧
  ∃ out, filter_vertical_and_horizontal_segments align = Some out ∧
         no_repeated_point out.
Proof.
  intros align.
  assert (t1_nondecreasing align) as Hmono.
  { apply t1_nondecreasing_Sorted. subst align. sorted_points. }
  assert (2 ≤ length align)%nat as HN by (simpl; lia).
  split; [by split; [|left]|].
  exact (filter_no_repeated_point align HN (or_introl Hmono)).
Defined.

(** C9 as stated fails: a path that leaves a point diagonally and comes
    back to it by a vertical and a horizontal step is filtered to that
    point twice. *)
Lemma filter_repeated_point_counterexample :
  filter_vertical_and_horizontal_segments
    [(0, 0); (1, 1); (1, 0); (0, 0)]%Q
  = Some [(0, 0); (0, 0)]%Q ∧
  ¬ no_repeated_point [(0, 0); (0, 0)]%Q.
Proof.
  split; [reflexivity|]. intros H.
  apply (H 0%nat (0, 0)%Q (0, 0)%Q eq_refl eq_refl). by split.
Qed.

End PathFilter.

(** ** PathDownsampler and the path handed to time-scale modification *)

Module SonifyFacts.
Import Path PathFacts Audio Sonify.

Lemma ends_split (wp : Align) :
  (2 ≤ length wp)%nat →
  ∃ first mid final, wp = first :: mid ++ [final].
Proof.
  intros HN. destruct wp as [|first rest]; [simpl in HN; lia|].
  destruct (last rest) as [final|] eqn:Hl.
  - apply last_Some in Hl as [mid ->]. by exists first, mid, final.
  - apply last_None in Hl. subst rest. simpl in HN. lia.
Qed.

Lemma middle_ends (first final : Point) (mid : Align) :
  middle (first :: mid ++ [final]) = mid.
Proof.
  unfold middle. simpl. rewrite length_app. simpl.
  replace (length mid + 1 - 0)%nat with (S (length mid)) by lia.
  simpl. by rewrite take_app_length.
Qed.

Lemma last_ends (first final : Point) (mid : Align) :
  last (first :: mid ++ [final]) = Some final.
Proof. by rewrite app_comm_cons, last_snoc. Qed.

(** The strided list by positions. *)
Lemma stride_from_lookup {A} (k : nat) (l : list A) (skip j : nat) :
  (1 ≤ k)%nat → stride_from k skip l !! j = l !! (skip + j * k)%nat.
Proof.
  intros Hk. revert skip j. induction l as [|x l IH]; intros skip j; [done|].
  destruct skip as [|skip]; simpl.
  - destruct j as [|j]; [done|]. simpl. rewrite IH.
    replace (k + j * k)%nat with (S (k - 1 + j * k)) by lia. done.
  - apply IH.
Qed.

Lemma stride_from_one {A} (l : list A) : stride_from 1 0 l = l.
Proof. induction l as [|x l IH]; [done|]. simpl. by rewrite IH. Qed.

Lemma downsample_step_ends (first final : Point) (mid : Align) (k : Z) :
  (1 ≤ k)%Z →
  downsample_step (first :: mid ++ [final]) k
  = Some (first :: stride_from (Z.to_nat k) 0 mid ++ [final]).
Proof.
  intros Hk. unfold downsample_step. rewrite middle_ends, last_ends. simpl.
  unfold slice_from0_step.
  destruct (Z.eqb_spec k 0) as [->|_]; [lia|].
  destruct (Z.ltb_spec k 0) as [?|_]; [lia|]. done.
Qed.

Lemma to_seconds_length (wp : Align) (hop_len : option Q) :
  length (to_seconds wp hop_len) = length wp.
Proof. destruct hop_len; [apply length_fmap | done]. Qed.

(** C7.  On a path of N >= 2 points and a factor k >= 1 the downsampled
    path is the first point, then the interior points of index
    [1, 1+k, 1+2k, ...] (as long as they are interior), then the last point:
    both endpoints are unchanged and every k-th interior point is kept from
    the first interior point on.  For k = 1 the path is unchanged.  The
    original path is the loaded one, in seconds. *)
Theorem downsample_contract (wp : Align) (k : Z) (hop_len : option Q) :
  (2 ≤ length wp)%nat → (1 ≤ k)%Z →
  let orig := to_seconds wp hop_len in
  ∃ first final mid,
    head orig = Some first ∧ last orig = Some final ∧
    get_preprocessed_wp wp k hop_len = Some (first :: mid ++ [final]) ∧
    (∀ j, mid !! j =
          if decide (j * Z.to_nat k + 2 < length orig)%nat
          then orig !! (j * Z.to_nat k + 1)%nat else None) ∧
    (k = 1%Z → first :: mid ++ [final] = orig).
Proof.
  intros HN Hk orig.
  destruct (ends_split orig) as (first & mid & final & Ho).
  { unfold orig. by rewrite to_seconds_length. }
  exists first, final, (stride_from (Z.to_nat k) 0 mid).
  change (get_preprocessed_wp wp k hop_len) with (downsample_step orig k).
  rewrite Ho. split_and!.
  - done.
  - apply last_ends.
  - by apply downsample_step_ends.
  - intros j. rewrite stride_from_lookup by lia. simpl.
    rewrite length_app. simpl.
    replace (j * Z.to_nat k + 1)%nat with (S (j * Z.to_nat k)) by lia.
    simpl. case_decide as Hj.
    + by rewrite lookup_app_l by lia.
    + apply lookup_ge_None_2. lia.
  - intros ->. by rewrite stride_from_one.
Qed.

Lemma downsample_contract_witness :
  let wp := [(0, 0); (1, 1); (2, 2); (3, 3); (4, 4); (5, 5)]%Q in
  ((2 ≤ length wp)%nat ∧ (1 ≤ 2)%Z) ∧
  ∃ first final mid,
    head wp = Some first ∧ last wp = Some final ∧
    get_preprocessed_wp wp 2 None = Some (first :: mid ++ [final]) ∧
    (∀ j, mid !! j =
          if decide (j * Z.to_nat 2 + 2 < length wp)%nat
          then wp !! (j * Z.to_nat 2 + 1)%nat else None) ∧
    (2%Z = 1%Z → first :: mid ++ [final] = wp).
Proof.
  intros wp.
  assert (2 ≤ length wp)%nat as HN by (simpl; lia).
  assert (1 ≤ 2)%Z as Hk by lia.
  split; [done|]. exact (downsample_contract wp 2 None HN Hk).
Defined.

Example downsample_example :
  get_preprocessed_wp [(0, 0); (1, 1); (2, 2); (3, 3); (4, 4); (5, 5)]%Q
                      2 None
  = Some [(0, 0); (1, 1); (3, 3); (5, 5)]%Q.
Proof. reflexivity. Qed.

Example downsample_scaled_example :
  get_preprocessed_wp [(0, 0); (2, 4); (4, 6)]%Q 1 (Some (1 # 2))
  = Some [(0 * (1 # 2), 0 * (1 # 2)); (2 * (1 # 2), 4 * (1 # 2));
          (4 * (1 # 2), 6 * (1 # 2))]%Q.
Proof. reflexivity. Qed.

(** C3, as amended.  On a path of N >= 2 points the filter preserves the
    last point.  It preserves the first point when the first two points
    differ in both coordinates; when they do not, the first point is dropped:
    the output is that of the path without its first point.  The
    downsampling step, for a factor k >= 1, preserves both endpoints. *)
Theorem endpoints_through_transforms (wp : Align) :
  (2 ≤ length wp)%nat →
  (∃ out, filter_vertical_and_horizontal_segments wp = Some out ∧
          last out = last wp ∧
          ∀ p q rest, wp = p :: q :: rest →
            if both_differ p q then head out = Some p
            else filter_vertical_and_horizontal_segments (q :: rest)
                 = Some out) ∧
  (∀ k, (1 ≤ k)%Z →
        ∃ out, downsample_step wp k = Some out ∧
               head out = head wp ∧ last out = last wp).
Proof.
  intros HN. split.
  - exists (filter_rec wp). split_and!.
    + by apply filter_is_rec, nonempty_of_length.
    + apply filter_rec_last.
    + intros p q rest ->.
      change (filter_rec (p :: q :: rest)) with
        (if both_differ p q then p :: filter_rec (q :: rest)
         else filter_rec (q :: rest)).
      destruct (both_differ p q); [done|]. by apply filter_is_rec.
  - intros k Hk. destruct (ends_split wp HN) as (first & mid & final & ->).
    eexists. split; [by apply downsample_step_ends|].
    split; [done|]. by rewrite !last_ends.
Qed.

Lemma endpoints_through_transforms_witness :
  let wp := [(0, 0); (0, 1); (1, 2); (2, 3)]%Q in
  (2 ≤ length wp)%nat ∧
  (∃ out, filter_vertical_and_horizontal_segments wp = Some out ∧
          last out = last wp ∧
          ∀ p q rest, wp = p :: q :: rest →
            if both_differ p q then head out = Some p
            else filter_vertical_and_horizontal_segments (q :: rest)
                 = Some out) ∧
  (∀ k, (1 ≤ k)%Z →
        ∃ out, downsample_step wp k = Some out ∧
               head out = head wp ∧ last out = last wp).
Proof.
  intros wp. split; [simpl; lia|].
  apply (endpoints_through_transforms wp). simpl; lia.
Defined.

(** C3 as stated fails: when the path starts with a vertical step, the
    filtered path does not begin with the first point of the raw path. *)
Lemma filter_first_point_counterexample :
  filter_vertical_and_horizontal_segments [(0, 0); (0, 1); (1, 2)]%Q
  = Some [(0, 1); (1, 2)]%Q ∧
  head [(0, 1); (1, 2)]%Q ≠ head [(0, 0); (0, 1); (1, 2)]%Q.
Proof. split; [reflexivity | discriminate]. Qed.

(** C4, as amended.  On a path of N >= 2 points and a factor k >= 1,
    [sonifyWithTSMSync] loads the path (in seconds), downsamples it, filters
    the downsampled path and passes the result, rows exchanged, to the
    time-scale modification: the path is downsampled before it is
    filtered. *)
Theorem tsm_path_downsampled_then_filtered
    (wp : Align) (k : Z) (hop_len : option Q) :
  (2 ≤ length wp)%nat → (1 ≤ k)%Z →
  ∃ downsampled filtered,
    downsample_step (to_seconds wp hop_len) k = Some downsampled ∧
    filter_vertical_and_horizontal_segments downsampled = Some filtered ∧
    tsm_warping_path wp k hop_len = Some (flipud filtered) ∧
    ∀ tsmvar_hybrid y1 y2,
      sonifyWithTSMSync tsmvar_hybrid y1 y2 wp k hop_len
      = Some (mix_separate_channels
                y1 (tsmvar_hybrid y2 (flipud filtered)) true false).
Proof.
  intros HN Hk.
  destruct (ends_split (to_seconds wp hop_len))
    as (first & mid & final & Ho).
  { by rewrite to_seconds_length. }
  pose proof (downsample_step_ends first final mid k Hk) as Hds.
  rewrite <- Ho in Hds.
  set (downsampled := first :: stride_from (Z.to_nat k) 0 mid ++ [final])
    in Hds.
  assert (filter_vertical_and_horizontal_segments downsampled
          = Some (filter_rec downsampled)) as Hf
    by (by apply filter_is_rec).
  exists downsampled, (filter_rec downsampled). split_and!; [done..| |].
  - unfold tsm_warping_path.
    change (get_preprocessed_wp wp k hop_len)
      with (downsample_step (to_seconds wp hop_len) k).
    rewrite Hds. simpl. by rewrite Hf.
  - intros tsm y1 y2. unfold sonifyWithTSMSync.
    change (get_preprocessed_wp wp k hop_len)
      with (downsample_step (to_seconds wp hop_len) k).
    rewrite Hds. simpl. by rewrite Hf.
Qed.

Lemma tsm_path_downsampled_then_filtered_witness :
  let wp := [(0, 0); (1, 1); (1, 2); (2, 3); (3, 4)]%Q in
  ((2 ≤ length wp)%nat ∧ (1 ≤ 2)%Z) ∧
  ∃ downsampled filtered,
    downsample_step (to_seconds wp None) 2 = Some downsampled ∧
    filter_vertical_and_horizontal_segments downsampled = Some filtered ∧
    tsm_warping_path wp 2 None = Some (flipud filtered) ∧
    ∀ tsmvar_hybrid y1 y2,
      sonifyWithTSMSync tsmvar_hybrid y1 y2 wp 2 None
      = Some (mix_separate_channels
                y1 (tsmvar_hybrid y2 (flipud filtered)) true false).
Proof.
  intros wp.
  assert (2 ≤ length wp)%nat as HN by (simpl; lia).
  assert (1 ≤ 2)%Z as Hk by lia.
  split; [done|].
  exact (tsm_path_downsampled_then_filtered wp 2 None HN Hk).
Defined.

(** C4 as stated fails: the path handed to the time-scale modification is
    not the one obtained by filtering first and downsampling afterwards. *)
Lemma tsm_path_order_counterexample :
  let wp := [(0, 0); (1, 1); (1, 2); (2, 3); (3, 4)]%Q in
  tsm_warping_path wp 2 None
  = Some [(0, 0); (1, 1); (3, 2); (4, 3)]%Q ∧
  filter_then_downsample wp 2 None
  = Some [(0, 0); (2, 1); (4, 3)]%Q ∧
  tsm_warping_path wp 2 None ≠ filter_then_downsample wp 2 None.
Proof. split_and!; [reflexivity | reflexivity | discriminate]. Qed.

End SonifyFacts.

(** ** GroundTruthMatcher *)

Module GroundTruth.
Import Path EvalTools.

Lemma parseAnnotationFile_snoc (rows : AnnotRows) (t : Q) (m : Z) :
  parseAnnotationFile (rows ++ [(t, m)])
  = <[m := t]> (parseAnnotationFile rows).
Proof. unfold parseAnnotationFile. by rewrite foldl_app. Qed.

(** Every timeline is the content of some annotation file. *)
Lemma parseAnnotationFile_surj (d : gmap Z Q) :
  ∃ rows, parseAnnotationFile rows = d.
Proof.
  induction d as [|m t d Hm _ IH] using map_first_key_ind.
  - by exists [].
  - destruct IH as [rows <-]. exists (rows ++ [(t, m)]).
    apply parseAnnotationFile_snoc.
Qed.

Lemma StronglySorted_le_NoDup_lt (l : list Z) :
  StronglySorted Z.le l → NoDup l → StronglySorted Z.lt l.
Proof.
  induction 1 as [|x l Hs IH Hx]; intros Hnd; constructor.
  - apply IH. by apply NoDup_cons_1_2 in Hnd.
  - apply NoDup_cons_1_1 in Hnd. rewrite Forall_forall in Hx.
    apply Forall_forall. intros y Hy.
    assert (x ≠ y) by (intros ->; done).
    specialize (Hx y Hy). lia.
Qed.

Lemma sorted_spec (s : gset Z) :
  StronglySorted Z.lt (sorted s) ∧ ∀ m, m ∈ sorted s ↔ m ∈ s.
Proof.
  unfold sorted. split.
  - apply StronglySorted_le_NoDup_lt.
    + apply (StronglySorted_merge_sort Z.le).
    + rewrite merge_sort_Permutation. apply NoDup_elements.
  - intros m. rewrite merge_sort_Permutation. apply elem_of_elements.
Qed.

(** C6.  The measure numbers returned are those present in both timelines
    and in the evaluation set, in ascending order; the pairs returned are as
    many, and the pair at index [i] holds the two timelines' timestamps at
    the measure of index [i]. *)
Theorem getGroundTruthTimestamps_spec
    (annotfile1 annotfile2 : AnnotRows) (allEvalMeasures : gset Z) :
  let gt1 := parseAnnotationFile annotfile1 in
  let gt2 := parseAnnotationFile annotfile2 in
  ∃ eval_pts overlap_measures,
    getGroundTruthTimestamps annotfile1 annotfile2 allEvalMeasures
    = Some (eval_pts, overlap_measures) ∧
    StronglySorted Z.lt overlap_measures ∧
    (∀ m, m ∈ overlap_measures ↔
          is_Some (gt1 !! m) ∧ is_Some (gt2 !! m) ∧ m ∈ allEvalMeasures) ∧
    length eval_pts = length overlap_measures ∧
    (∀ i m, overlap_measures !! i = Some m →
            ∃ t1 t2, gt1 !! m = Some t1 ∧ gt2 !! m = Some t2 ∧
                     eval_pts !! i = Some (t1, t2)).
Proof.
  intros gt1 gt2. unfold getGroundTruthTimestamps.
  fold gt1 gt2.
  set (s := dom gt1 ∩ dom gt2 ∩ allEvalMeasures).
  destruct (sorted_spec s) as [Hsorted Hmem].
  assert (∀ m, m ∈ sorted s ↔
               is_Some (gt1 !! m) ∧ is_Some (gt2 !! m) ∧ m ∈ allEvalMeasures)
    as Hmem'.
  { intros m. rewrite Hmem. unfold s. rewrite !elem_of_intersection.
    rewrite !elem_of_dom. tauto. }
  set (pair_at := λ m : Z, t1 ← gt1 !! m; t2 ← gt2 !! m; Some (t1, t2)).
  destruct (mapM pair_at (sorted s)) as [eval_pts|] eqn:Hpts.
  2:{ exfalso. apply eq_None_not_Some in Hpts. apply Hpts.
      apply mapM_is_Some, Forall_forall. intros m Hm.
      apply Hmem' in Hm as ([t1 H1] & [t2 H2] & _).
      unfold pair_at; simpl. rewrite H1, H2. by eexists. }
  exists eval_pts, (sorted s). apply mapM_Some in Hpts.
  split_and!; [done..| |].
  - symmetry. by eapply Forall2_length.
  - intros i m Hi.
    destruct (Forall2_lookup_l _ _ _ _ _ Hpts Hi) as (pt & Hpt & Hpair).
    unfold pair_at in Hpair.
    destruct (gt1 !! m) as [t1|]; [|done].
    destruct (gt2 !! m) as [t2|]; [|done].
    simpl in Hpair. exists t1, t2. by simplify_eq.
Qed.

Example getGroundTruthTimestamps_example :
  getGroundTruthTimestamps
    [(10, 3%Z); (5, 1%Z); (7, 2%Z)]%Q
    [(6, 1%Z); (12, 3%Z); (20, 4%Z)]%Q
    {[1%Z; 3%Z; 4%Z]}
  = Some ([(5, 6); (10, 12)]%Q, [1%Z; 3%Z]).
Proof. vm_compute. reflexivity. Qed.

End GroundTruth.

(** ** AlignmentErrorEvaluator *)

Module Evaluator.
Import Path PathFacts EvalTools.

Lemma Qlt_bool_true (x y : Q) : Qlt_bool x y = true ↔ (x < y)%Q.
Proof.
  unfold Qlt_bool. rewrite negb_true_iff, <- not_true_iff_false.
  rewrite Qle_bool_iff. split; [apply Qnot_le_lt | apply Qlt_not_le].
Qed.

Lemma Qlt_bool_false (x y : Q) : Qlt_bool x y = false ↔ (y <= x)%Q.
Proof.
  unfold Qlt_bool. rewrite negb_false_iff. apply Qle_bool_iff.
Qed.

(** On a path with strictly increasing abscissae, a point at a later index
    has an abscissa at least as large. *)
Lemma sorted_lookup_le (l : Align) (i j : nat) (a b : Point) :
  Sorted (λ p q : Point, p.1 < q.1)%Q l →
  (i ≤ j)%nat → l !! i = Some a → l !! j = Some b → (a.1 <= b.1)%Q.
Proof.
  intros Hs. apply Sorted_StronglySorted in Hs.
  2:{ intros p q r ? ?. by apply Qlt_trans with q.1. }
  revert i j. induction Hs as [|x l Hs IH Hx]; intros i j Hij Ha Hb; [done|].
  destruct i as [|i], j as [|j]; simpl in *; simplify_eq.
  - apply Qle_refl.
  - rewrite Forall_forall in Hx. apply Qlt_le_weak, Hx.
    by eapply list_elem_of_lookup_2.
  - lia.
  - apply (IH i j); [lia|done..].
Qed.

(** The interpolation formula in the three positions of the anchor. *)
Lemma segment_at_left (a1 a2 s : Q) : (a2 == a2 + (a1 - a1) * s)%Q.
Proof. ring. Qed.

Lemma segment_inside (a1 a2 s x : Q) :
  (s * (x - a1) + a2 == a2 + (x - a1) * s)%Q.
Proof. ring. Qed.

Lemma segment_at_right (a1 a2 b1 b2 : Q) :
  (a1 < b1)%Q → (b2 == a2 + (b1 - a1) * ((b2 - a2) / (b1 - a1)))%Q.
Proof. intros H. field. lra. Qed.

Lemma interp_from_at_start (x : Q) (p : Point) (rest : Align) :
  Sorted (λ p q : Point, p.1 < q.1)%Q (p :: rest) →
  (x == p.1)%Q → interp_from x p rest = p.2.
Proof.
  intros Hs Hx. destruct rest as [|q rest]; [done|]. simpl.
  apply Sorted_inv in Hs as [_ Hd]. apply HdRel_inv in Hd. simpl in Hd.
  assert (Qlt_bool x q.1 = true) as -> by (apply Qlt_bool_true; lra).
  assert (Qeq_bool p.1 x = true) as -> by (apply Qeq_bool_iff; lra).
  done.
Qed.

(** Inside the domain: the value on the bracketing segment. *)
Lemma interp_from_segment (x : Q) (rest : Align) :
  ∀ (p : Point) (j : nat) (a b : Point),
    Sorted (λ p q : Point, p.1 < q.1)%Q (p :: rest) →
    (p :: rest) !! j = Some a → (p :: rest) !! (j + 1)%nat = Some b →
    (a.1 <= x)%Q → (x <= b.1)%Q →
    (interp_from x p rest
     == a.2 + (x - a.1) * ((b.2 - a.2) / (b.1 - a.1)))%Q.
Proof.
  induction rest as [|q rest IH]; intros p j a b Hs Ha Hb Hax Hxb.
  { rewrite Nat.add_1_r in Hb. done. }
  pose proof Hs as Hs0.
  apply Sorted_inv in Hs as [Hs Hd]. apply HdRel_inv in Hd. simpl in Hd.
  rewrite Nat.add_1_r in Hb. simpl in Hb. simpl interp_from.
  destruct (Qlt_bool x q.1) eqn:E.
  - apply Qlt_bool_true in E. destruct j as [|j]; simpl in Ha, Hb.
    + simplify_eq. destruct (Qeq_bool a.1 x) eqn:E2.
      * apply Qeq_bool_iff in E2. rewrite <- E2. apply segment_at_left.
      * apply segment_inside.
    + assert (q.1 <= a.1)%Q
        by (apply (sorted_lookup_le (q :: rest) 0 j); [done|lia|done..]).
      lra.
  - apply Qlt_bool_false in E. destruct j as [|j]; simpl in Ha, Hb.
    + simplify_eq. rewrite (interp_from_at_start x b rest Hs) by lra.
      assert (x == b.1)%Q as -> by lra. apply segment_at_right. lra.
    + apply (IH q j a b Hs Ha); [|done..].
      by rewrite Nat.add_1_r.
Qed.

Lemma interp1_spec (samples : Align) (x : Q) :
  samples ≠ [] → t1_strictly_increasing samples →
  ∃ v, interp1 samples x = Some v ∧ interpolates samples x v.
Proof.
  intros Hne Hs. apply t1_strictly_increasing_Sorted in Hs.
  destruct samples as [|first rest]; [done|].
  destruct (last (first :: rest)) as [final|] eqn:Hl.
  2:{ by apply last_None in Hl. }
  pose proof Hl as Hl'. rewrite last_lookup in Hl'.
  assert (∀ j a, (first :: rest) !! j = Some a →
                 (first.1 <= a.1 ∧ a.1 <= final.1)%Q) as Hbounds.
  { intros j a Ha. pose proof (lookup_lt_Some _ _ _ Ha) as Hj. split.
    - apply (sorted_lookup_le (first :: rest) 0 j); [done|lia|done..].
    - apply (sorted_lookup_le (first :: rest) j
               (pred (length (first :: rest)))); [done|lia|done..]. }
  unfold interp1. rewrite Hl. simpl.
  destruct (Qlt_bool final.1 x) eqn:E1.
  { apply Qlt_bool_true in E1. eexists; split; [done|].
    split_and!.
    - intros ? [= <-] Hx.
      destruct (Hbounds 0%nat first eq_refl) as [_ ?]. lra.
    - intros final' Hf _. rewrite Hl in Hf. by simplify_eq.
    - intros j p q _ Hq _ Hxq. destruct (Hbounds _ _ Hq) as [_ ?]. lra. }
  apply Qlt_bool_false in E1.
  destruct (Qlt_bool x first.1) eqn:E2.
  { apply Qlt_bool_true in E2. eexists; split; [done|].
    split_and!.
    - by intros ? [= <-] _.
    - intros final' Hf Hx. rewrite Hl in Hf. simplify_eq. lra.
    - intros j p q Hp _ Hpx _. destruct (Hbounds _ _ Hp) as [? _]. lra. }
  apply Qlt_bool_false in E2. eexists; split; [done|].
  split_and!.
  - intros ? [= <-] Hx. lra.
  - intros final' Hf Hx. rewrite Hl in Hf. simplify_eq. lra.
  - intros j p q Hp Hq Hpx Hxq.
    by apply (interp_from_segment x rest first j p q).
Qed.

Lemma frames_to_seconds_increasing (hypalign : Align) :
  t1_strictly_increasing hypalign →
  t1_strictly_increasing (frames_to_seconds hypalign).
Proof.
  rewrite !t1_strictly_increasing_Sorted. unfold frames_to_seconds.
  apply Sorted_fmap. intros p q Hpq. simpl. unfold Qdiv.
  apply Qmult_lt_compat_r; [|done]. by vm_compute.
Qed.

Lemma np_interp_path (xs : list Q) (path : Align) :
  path ≠ [] → t1_strictly_increasing path →
  ∃ pred, np_interp xs (path.*1) (path.*2) = Some pred ∧
          Forall2 (interpolates path) xs pred.
Proof.
  intros Hne Hs. unfold np_interp. rewrite !length_fmap, Nat.eqb_refl.
  destruct (Nat.eqb_spec (length path) 0) as [H0|_].
  { by destruct path. }
  simpl. rewrite zip_fst_snd.
  destruct (mapM (interp1 path) xs) as [pred|] eqn:Hm.
  - exists pred. split; [done|]. apply mapM_Some in Hm.
    eapply Forall2_impl; [done|]. intros x v Hv. simpl in Hv.
    destruct (interp1_spec path x Hne Hs) as (v' & Hv' & Hint).
    by simplify_eq.
  - exfalso. apply eq_None_not_Some in Hm. apply Hm.
    apply mapM_is_Some, Forall_forall. intros x _.
    destruct (interp1_spec path x Hne Hs) as (v' & Hv' & _).
    simpl. by rewrite Hv'.
Qed.

(** C5.  For a hypothesis path with strictly increasing first coordinate
    and a non-empty ground truth, [calcAlignErrors_single] returns one error
    per ground-truth pair [(t1, t2)], equal to [pred - t2], where [pred]
    is the first path point's second coordinate when [t1] is before the
    path, the last path point's second coordinate when [t1] is after it, and
    the linear interpolation between two consecutive path points that
    bracket [t1] otherwise.  On the path [[0,0],[2,2]] the prediction at the
    anchor 5 is 2. *)
Theorem calcAlignErrors_single_spec :
  (∀ (hypalign : Align) (annotfile1 annotfile2 : AnnotRows)
     (allEvalMeasures : gset Z) (frames : bool)
     (gt : list (Q * Q)) (measNums : list Z),
     (1 ≤ length hypalign)%nat →
     t1_strictly_increasing hypalign →
     getGroundTruthTimestamps annotfile1 annotfile2 allEvalMeasures
     = Some (gt, measNums) →
     gt ≠ [] →
     let path := if frames then frames_to_seconds hypalign else hypalign in
     ∃ err,
       calcAlignErrors_single hypalign annotfile1 annotfile2
                              allEvalMeasures frames
       = Some (err, measNums) ∧
       length err = length gt ∧
       ∀ i t1 t2, gt !! i = Some (t1, t2) →
         ∃ pred, interpolates path t1 pred ∧
                 err !! i = Some (pred - t2)%Q) ∧
  np_interp [5]%Q [0; 2]%Q [0; 2]%Q = Some [2]%Q.
Proof.
  split; [|reflexivity].
  intros hypalign annotfile1 annotfile2 allEvalMeasures frames gt measNums
         HN Hs Hgt Hne path.
  assert (path ≠ []) as Hpne.
  { unfold path. destruct frames, hypalign; simpl in *; (done || lia). }
  assert (t1_strictly_increasing path) as Hps.
  { unfold path. destruct frames; [|done].
    by apply frames_to_seconds_increasing. }
  destruct (np_interp_path (gt.*1) path Hpne Hps) as (pred & Hpred & HF).
  exists (zip_with Qminus pred (gt.*2)).
  pose proof (Forall2_length _ _ _ HF) as Hlen.
  rewrite length_fmap in Hlen. split_and!.
  - unfold calcAlignErrors_single. rewrite Hgt. simpl. fold path.
    destruct gt as [|g gt]; [done|]. by rewrite Hpred.
  - rewrite length_zip_with, length_fmap. lia.
  - intros i t1 t2 Hi.
    assert (gt.*1 !! i = Some t1) as H1
      by (by rewrite list_lookup_fmap, Hi).
    assert (gt.*2 !! i = Some t2) as H2
      by (by rewrite list_lookup_fmap, Hi).
    destruct (Forall2_lookup_l _ _ _ _ _ HF H1) as (v & Hv & Hint).
    exists v. split; [done|]. by rewrite lookup_zip_with, Hv, H2.
Qed.

Lemma calcAlignErrors_single_spec_witness :
  let hypalign := [(0, 0); (2, 2)]%Q in
  let annotfile1 := [(5, 1%Z)]%Q in
  let annotfile2 := [(3, 1%Z)]%Q in
  ((1 ≤ length hypalign)%nat ∧ t1_strictly_increasing hypalign ∧
   getGroundTruthTimestamps annotfile1 annotfile2 {[1%Z]}
   = Some ([(5, 3)]%Q, [1%Z]) ∧
   [(5, 3)]%Q ≠ []) ∧
  ∃ err,
    calcAlignErrors_single hypalign annotfile1 annotfile2 {[1%Z]} false
    = Some (err, [1%Z]) ∧
    length err = 1%nat ∧
    ∀ i t1 t2, [(5, 3)]%Q !! i = Some (t1, t2) →
      ∃ pred, interpolates hypalign t1 pred ∧
              err !! i = Some (pred - t2)%Q.
Proof.
  intros hypalign annotfile1 annotfile2.
  assert (1 ≤ length hypalign)%nat as HN by (simpl; lia).
  assert (t1_strictly_increasing hypalign) as Hs.
  { apply t1_strictly_increasing_Sorted. subst hypalign. sorted_points. }
  assert (getGroundTruthTimestamps annotfile1 annotfile2 {[1%Z]}
          = Some ([(5, 3)]%Q, [1%Z])) as Hgt by (vm_compute; reflexivity).
  assert ([(5, 3)]%Q ≠ []) as Hne by discriminate.
  split; [done|].
  exact (proj1 calcAlignErrors_single_spec hypalign annotfile1 annotfile2
           {[1%Z]} false [(5, 3)]%Q [1%Z] HN Hs Hgt Hne).
Defined.

Example calcAlignErrors_clamped :
  calcAlignErrors_single [(0, 0); (2, 2)]%Q [(5, 1%Z)]%Q [(3, 1%Z)]%Q
                         {[1%Z]} false
  = Some ([2 - 3]%Q, [1%Z]).
Proof. vm_compute. reflexivity. Qed.

Example calcAlignErrors_identity :
  calcAlignErrors_single [(0, 0); (1, 1); (2, 2)]%Q
    [(0, 1%Z); (1, 2%Z); (2, 3%Z)]%Q [(0, 1%Z); (1, 2%Z); (2, 3%Z)]%Q
    {[1%Z; 2%Z; 3%Z]} false
  = Some ([0 - 0; 1 - 1; 2 - 2]%Q, [1%Z; 2%Z; 3%Z]).
Proof. vm_compute. reflexivity. Qed.

End Evaluator.

(** ** Channel volume reweighting *)

Module Reweighting.
Import Audio.

Lemma finite_channel (c : list xreal) :
  Forall is_finite c → ∃ rs, c = Fin <$> rs.
Proof.
  induction 1 as [|x c Hx _ [rs ->]]; [by exists []|].
  destruct x as [r| | |]; try done. by exists (r :: rs).
Qed.

Lemma sum_sq_nonneg (rs : list R) : (0 <= sum_sq rs)%R.
Proof.
  induction rs as [|r rs IH]; simpl; [lra | nra].
Qed.

Lemma sum_sq_zeros (n : nat) : sum_sq (replicate n 0%R) = 0%R.
Proof. induction n as [|n IH]; simpl; [done|]. rewrite IH. ring. Qed.

Lemma sum_sq_scale (g : R) (rs : list R) :
  sum_sq ((λ r, r * g)%R <$> rs) = (g * g * sum_sq rs)%R.
Proof.
  induction rs as [|r rs IH]; csimpl; [ring|].
  rewrite IH. ring.
Qed.

Lemma mean_square_finite (rs : list R) :
  rs ≠ [] →
  mean_square (Fin <$> rs) = Fin (sum_sq rs / INR (length rs)).
Proof.
  intros Hne. unfold mean_square, mean.
  assert (foldr xadd (Fin 0) ((λ s, xmul s s) <$> (Fin <$> rs))
          = Fin (sum_sq rs)) as ->.
  { clear Hne. induction rs as [|r rs IH]; [done|].
    csimpl. by rewrite IH. }
  rewrite !length_fmap. simpl.
  destruct (Req_dec_T (INR (length rs)) 0) as [H0|_]; [|done].
  apply not_0_INR in H0; [done|]. by destruct rs.
Qed.

Lemma mean_square_empty : mean_square [] = NaN.
Proof.
  unfold mean_square, mean. simpl.
  destruct (Req_dec_T 0 0) as [_|H]; [|done].
  unfold Rsign. destruct (Rlt_dec 0 0) as [H|_]; [lra|done].
Qed.

Lemma gain_finite (ml mr : R) :
  (0 <= ml)%R → (0 < mr)%R →
  xsqrt (xdiv (Fin ml) (Fin mr)) = Fin (sqrt (ml / mr)).
Proof.
  intros Hl Hr. simpl.
  destruct (Req_dec_T mr 0) as [?|_]; [lra|]. simpl.
  destruct (Rlt_dec (ml / mr) 0) as [H|_]; [|done].
  assert (0 <= ml / mr)%R by (by apply Rle_mult_inv_pos). lra.
Qed.

Lemma Rsign_zero : Rsign 0 = Eq.
Proof.
  unfold Rsign. destruct (Rlt_dec 0 0) as [H|_]; [lra | done].
Qed.

Lemma zero_times_infinity : xmul (Fin 0) PInf = NaN.
Proof. simpl. by rewrite Rsign_zero. Qed.

(** With a zero divisor the gain is an infinity or not a number, and a zero
    sample times the gain is not a number. *)
Lemma zero_times_gain (mse_left : xreal) :
  xmul (Fin 0) (xsqrt (xdiv mse_left (Fin 0))) = NaN.
Proof.
  destruct mse_left as [a| | |]; simpl.
  - destruct (Req_dec_T 0 0) as [_|H]; [|done].
    unfold Rsign. destruct (Rlt_dec a 0); [done|].
    destruct (Rlt_dec 0 a); [apply zero_times_infinity | done].
  - destruct (Rlt_dec 0 0) as [H|_]; [lra|]. apply zero_times_infinity.
  - destruct (Rlt_dec 0 0) as [H|_]; [lra|]. done.
  - done.
Qed.

Lemma mean_square_Fin_nonempty (c : list xreal) (m : R) :
  mean_square c = Fin m → c ≠ [].
Proof. intros H ->. by rewrite mean_square_empty in H. Qed.

Lemma reweighted_columns (x_stereo : Stereo) :
  (channel_volume_reweighting x_stereo).*1 = x_stereo.*1 ∧
  (channel_volume_reweighting x_stereo).*2
  = (λ s, xmul s (xsqrt (xdiv (mean_square (x_stereo.*1))
                              (mean_square (x_stereo.*2)))))
    <$> x_stereo.*2.
Proof.
  unfold channel_volume_reweighting.
  set (g := xsqrt _). clearbody g.
  split; induction x_stereo as [|row x IH]; csimpl; by f_equal.
Qed.

(** What the reweighting does to a buffer of finite samples whose second
    channel has energy. *)
Lemma reweighting_finite (x_stereo : Stereo) (mse_right : R) :
  Forall (λ row, is_finite row.1 ∧ is_finite row.2) x_stereo →
  mean_square (x_stereo.*2) = Fin mse_right →
  mse_right ≠ 0%R →
  ∃ mse_left : R,
    mean_square (x_stereo.*1) = Fin mse_left ∧
    (channel_volume_reweighting x_stereo).*1 = x_stereo.*1 ∧
    (channel_volume_reweighting x_stereo).*2
    = (λ s, xmul s (Fin (sqrt (mse_left / mse_right)))) <$> x_stereo.*2 ∧
    mean_square ((channel_volume_reweighting x_stereo).*2) = Fin mse_left ∧
    Forall is_finite ((channel_volume_reweighting x_stereo).*2).
Proof.
  intros Hfin Hr Hr0.
  destruct (finite_channel (x_stereo.*1)) as [ls Hls].
  { apply Forall_fmap. eapply Forall_impl; [done|]. by intros ? [? ?]. }
  destruct (finite_channel (x_stereo.*2)) as [rs Hrs].
  { apply Forall_fmap. eapply Forall_impl; [done|]. by intros ? [? ?]. }
  pose proof (mean_square_Fin_nonempty _ _ Hr) as Hne.
  assert (rs ≠ []) as Hrne by (intros ->; by rewrite Hrs in Hne).
  assert (ls ≠ []) as Hlne.
  { intros ->. destruct x_stereo; [done|]. done. }
  assert (length ls = length rs) as Hlen.
  { rewrite <- (length_fmap Fin ls), <- (length_fmap Fin rs), <- Hls, <- Hrs.
    by rewrite !length_fmap. }
  destruct (reweighted_columns x_stereo) as [Hc1 Hc2].
  rewrite Hls, Hrs in Hc2. rewrite Hrs in Hr.
  rewrite (mean_square_finite ls Hlne) in Hc2.
  rewrite (mean_square_finite rs Hrne) in Hc2, Hr.
  injection Hr as Hr.
  set (ml := (sum_sq ls / INR (length ls))%R) in *.
  assert (0 < INR (length rs))%R as HN.
  { apply lt_0_INR. destruct rs; [done | simpl; lia]. }
  assert (0 <= ml)%R as Hml.
  { unfold ml. rewrite Hlen. apply Rle_mult_inv_pos; [|done].
    apply sum_sq_nonneg. }
  assert (0 < mse_right)%R as Hmr.
  { assert (0 <= mse_right)%R; [|lra]. rewrite <- Hr.
    apply Rle_mult_inv_pos; [|done]. apply sum_sq_nonneg. }
  rewrite Hr, (gain_finite ml mse_right Hml Hmr) in Hc2.
  set (g := sqrt (ml / mse_right)) in *.
  assert ((channel_volume_reweighting x_stereo).*2
          = Fin <$> ((λ r, r * g)%R <$> rs)) as Hc2'.
  { rewrite Hc2. rewrite <- !list_fmap_compose. done. }
  exists ml. rewrite Hls. split_and!.
  - by apply mean_square_finite.
  - by rewrite Hc1.
  - by rewrite Hc2, Hrs.
  - rewrite Hc2'. rewrite mean_square_finite.
    2:{ by destruct rs. }
    f_equal. rewrite sum_sq_scale, length_fmap.
    assert (g * g = ml / mse_right)%R as ->.
    { apply sqrt_sqrt. by apply Rle_mult_inv_pos. }
    rewrite <- Hr. field. split; [lra|].
    intros H0. rewrite <- Hr, H0 in Hmr. unfold Rdiv in Hmr. lra.
  - rewrite Hc2'. apply Forall_fmap, Forall_forall. done.
Qed.

(** C8.  On a buffer of finite samples whose second channel has a nonzero
    mean squared amplitude, the second channel is multiplied by the square
    root of the ratio of the first channel's mean squared amplitude to the
    second's, the first channel is unchanged, and afterwards the two mean
    squared amplitudes are equal (in exact real arithmetic). *)
Theorem reweighting_equalizes (x_stereo : Stereo) (mse_right : R) :
  Forall (λ row, is_finite row.1 ∧ is_finite row.2) x_stereo →
  mean_square (x_stereo.*2) = Fin mse_right →
  mse_right ≠ 0%R →
  ∃ mse_left : R,
    let out := channel_volume_reweighting x_stereo in
    mean_square (x_stereo.*1) = Fin mse_left ∧
    out.*1 = x_stereo.*1 ∧
    out.*2
    = (λ s, xmul s (Fin (sqrt (mse_left / mse_right)))) <$> x_stereo.*2 ∧
    mean_square (out.*2) = mean_square (out.*1).
Proof.
  intros Hfin Hr Hr0.
  destruct (reweighting_finite x_stereo mse_right Hfin Hr Hr0)
    as (ml & Hl & H1 & H2 & Heq & _).
  exists ml. simpl. split_and!; [done..|]. by rewrite Heq, H1.
Qed.

Lemma reweighting_equalizes_witness :
  let x_stereo := [(Fin 3, Fin 1); (Fin 4, Fin 2)] in
  let mse_right := ((1 * 1 + (2 * 2 + 0)) / INR 2)%R in
  (Forall (λ row, is_finite row.1 ∧ is_finite row.2) x_stereo ∧
   mean_square (x_stereo.*2) = Fin mse_right ∧ mse_right ≠ 0%R) ∧
  ∃ mse_left : R,
    let out := channel_volume_reweighting x_stereo in
    mean_square (x_stereo.*1) = Fin mse_left ∧
    out.*1 = x_stereo.*1 ∧
    out.*2
    = (λ s, xmul s (Fin (sqrt (mse_left / mse_right)))) <$> x_stereo.*2 ∧
    mean_square (out.*2) = mean_square (out.*1).
Proof.
  intros x_stereo mse_right.
  assert (Forall (λ row, is_finite row.1 ∧ is_finite row.2) x_stereo)
    as Hfin by (by repeat constructor).
  assert (mean_square (x_stereo.*2) = Fin mse_right) as Hr.
  { exact (mean_square_finite [1; 2]%R ltac:(done)). }
  assert (mse_right ≠ 0%R) as Hr0.
  { unfold mse_right. simpl. lra. }
  split; [done|].
  exact (reweighting_equalizes x_stereo mse_right Hfin Hr Hr0).
Defined.

(** C10.  The quotient [mse_left / mse_right] is taken without a test on
    the divisor.  On a non-empty buffer whose second channel is zero
    throughout, the divisor is zero and every sample of the second channel
    of the result is not a number.  On a buffer of finite samples whose
    second channel has a nonzero mean squared amplitude, every sample of the
    second channel of the result is finite. *)
Theorem reweighting_zero_divisor :
  (∀ x_stereo : Stereo,
     x_stereo ≠ [] →
     Forall (λ row, row.2 = Fin 0) x_stereo →
     mean_square (x_stereo.*2) = Fin 0 ∧
     Forall (λ row, row.2 = NaN ∧ ¬ is_finite row.2)
            (channel_volume_reweighting x_stereo)) ∧
  (∀ (x_stereo : Stereo) (mse_right : R),
     Forall (λ row, is_finite row.1 ∧ is_finite row.2) x_stereo →
     mean_square (x_stereo.*2) = Fin mse_right →
     mse_right ≠ 0%R →
     Forall (λ row, is_finite row.2) (channel_volume_reweighting x_stereo)).
Proof.
  split.
  - intros x_stereo Hne Hzero.
    assert (x_stereo.*2 = Fin <$> replicate (length x_stereo) 0%R) as Hrs.
    { clear Hne. induction Hzero as [|row x Hrow _ IH]; [done|].
      csimpl. by rewrite Hrow, IH. }
    assert (mean_square (x_stereo.*2) = Fin 0) as Hmr.
    { rewrite Hrs, mean_square_finite by (by destruct x_stereo).
      f_equal.
      rewrite sum_sq_zeros. unfold Rdiv. ring. }
    split; [done|].
    unfold channel_volume_reweighting. rewrite Hmr.
    apply Forall_fmap, Forall_forall. intros row Hrow. simpl.
    rewrite Forall_forall in Hzero. rewrite (Hzero row Hrow).
    rewrite zero_times_gain. split; [done | by intros []].
  - intros x_stereo mse_right Hfin Hr Hr0.
    destruct (reweighting_finite x_stereo mse_right Hfin Hr Hr0)
      as (ml & _ & _ & _ & _ & Hall).
    exact (proj1 (Forall_fmap snd is_finite _) Hall).
Qed.

Lemma reweighting_zero_divisor_witness :
  (let x_stereo := [(Fin 1, Fin 0); (Fin 2, Fin 0)] in
   (x_stereo ≠ [] ∧ Forall (λ row, row.2 = Fin 0) x_stereo) ∧
   mean_square (x_stereo.*2) = Fin 0 ∧
   Forall (λ row, row.2 = NaN ∧ ¬ is_finite row.2)
          (channel_volume_reweighting x_stereo)) ∧
  (let x_stereo := [(Fin 3, Fin 1); (Fin 4, Fin 2)] in
   let mse_right := ((1 * 1 + (2 * 2 + 0)) / INR 2)%R in
   (Forall (λ row, is_finite row.1 ∧ is_finite row.2) x_stereo ∧
    mean_square (x_stereo.*2) = Fin mse_right ∧ mse_right ≠ 0%R) ∧
   Forall (λ row, is_finite row.2) (channel_volume_reweighting x_stereo)).
Proof.
  split.
  - intros x_stereo.
    assert (x_stereo ≠ []) as Hne by discriminate.
    assert (Forall (λ row, row.2 = Fin 0) x_stereo) as Hzero
      by (by repeat constructor).
    split; [done|].
    exact (proj1 reweighting_zero_divisor x_stereo Hne Hzero).
  - intros x_stereo mse_right.
    assert (Forall (λ row, is_finite row.1 ∧ is_finite row.2) x_stereo)
      as Hfin by (by repeat constructor).
    assert (mean_square (x_stereo.*2) = Fin mse_right) as Hr.
    { exact (mean_square_finite [1; 2]%R ltac:(done)). }
    assert (mse_right ≠ 0%R) as Hr0.
    { unfold mse_right. simpl. lra. }
    split; [done|].
    exact (proj2 reweighting_zero_divisor x_stereo mse_right Hfin Hr Hr0).
Defined.

End Reweighting.

(** * Further properties of the code *)

(** ** The filter as a function on paths *)

Module FilterMore.
Import Path PathFacts PathOrder.

Lemma filter_rec_sublist (a : Align) : filter_rec a `sublist_of` a.
Proof.
  induction a as [|p a IH]; [constructor|].
  destruct a as [|q a]; [done|].
  change (filter_rec (p :: q :: a)) with
    (if both_differ p q then p :: filter_rec (q :: a)
     else filter_rec (q :: a)).
  destruct (both_differ p q); by constructor.
Qed.

Lemma all_steps_diagonal_Sorted (a : Align) :
  all_steps_diagonal a ↔ Sorted (λ p q, both_differ p q = true) a.
Proof. exact (consecutive_Sorted _ a). Qed.

Lemma t2_strictly_increasing_Sorted (a : Align) :
  t2_strictly_increasing a ↔ Sorted (λ p q, p.2 < q.2)%Q a.
Proof. exact (consecutive_Sorted _ a). Qed.

Lemma filter_rec_fixpoint (a : Align) :
  filter_rec a = a ↔ all_steps_diagonal a.
Proof.
  rewrite all_steps_diagonal_Sorted.
  induction a as [|p a IH]; [by split; [constructor|]|].
  destruct a as [|q a]; [by split; [repeat constructor|]|].
  change (filter_rec (p :: q :: a)) with
    (if both_differ p q then p :: filter_rec (q :: a)
     else filter_rec (q :: a)).
  destruct (both_differ p q) eqn:E; split.
  - intros [= H]. constructor; [by apply IH | by constructor].
  - intros Hs. apply Sorted_inv in Hs as [Hs _]. f_equal. by apply IH.
  - intros H. pose proof (sublist_length _ _ (filter_rec_sublist (q :: a))).
    rewrite H in *. simpl in *. lia.
  - intros Hs. apply Sorted_inv in Hs as [_ Hd]. apply HdRel_inv in Hd.
    congruence.
Qed.

(** The filter fails exactly on the array with no column; otherwise its
    output is a non-empty subsequence of the input, in the input's order. *)
Theorem filter_subsequence (align : Align) :
  match filter_vertical_and_horizontal_segments align with
  | Some out => out `sublist_of` align ∧ out ≠ [] ∧ align ≠ []
  | None => align = []
  end.
Proof.
  destruct align as [|p a]; [done|].
  rewrite filter_is_rec by done. split_and!; [|intros H|done].
  - apply filter_rec_sublist.
  - by apply filter_rec_nil in H.
Qed.

Lemma filter_unchanged (align : Align) :
  filter_vertical_and_horizontal_segments align = Some align
  ↔ align ≠ [] ∧ all_steps_diagonal align.
Proof.
  destruct align as [|p a]; [by split; [|intros [? _]]|].
  rewrite filter_is_rec by done. rewrite <- filter_rec_fixpoint. split.
  - intros H. split; [done | congruence].
  - intros [_ H]. congruence.
Qed.

(** The filter returns its input unchanged exactly when the input is
    non-empty and each of its steps changes both coordinates. *)
Theorem filter_fixpoint_iff (align : Align) :
  filter_vertical_and_horizontal_segments align = Some align
  ↔ align ≠ [] ∧ all_steps_diagonal align.
Proof. apply filter_unchanged. Qed.

Lemma filter_rec_strict_both (a : Align) :
  t1_nondecreasing a → t2_nondecreasing a →
  Sorted (λ p q, p.1 < q.1)%Q (filter_rec a) ∧
  Sorted (λ p q, p.2 < q.2)%Q (filter_rec a).
Proof.
  intros H1 H2. split.
  - apply (filter_rec_monotone fst).
    + intros p q E. by apply both_differ_true in E as [? ?].
    + by apply t1_nondecreasing_Sorted.
  - apply (filter_rec_monotone snd).
    + intros p q E. by apply both_differ_true in E as [? ?].
    + by apply t2_nondecreasing_Sorted.
Qed.

Lemma strict_both_diagonal (a : Align) :
  Sorted (λ p q, p.1 < q.1)%Q a → Sorted (λ p q, p.2 < q.2)%Q a →
  all_steps_diagonal a.
Proof.
  intros H1 H2 i p q Hp Hq.
  apply (proj2 (consecutive_Sorted _ _)) with (i := i) (p := p) (q := q)
    in H1; [|done..].
  apply (proj2 (consecutive_Sorted _ _)) with (i := i) (p := p) (q := q)
    in H2; [|done..].
  simpl in *. apply both_differ_true. split; intros E; rewrite E in *;
    by eapply Qlt_irrefl.
Qed.

(** On a non-empty path that never goes back in either coordinate the
    filter is idempotent, and its output is strictly increasing in both
    coordinates. *)
Theorem filter_idempotent_on_monotone (align : Align) :
  align ≠ [] → t1_nondecreasing align → t2_nondecreasing align →
  ∃ out, filter_vertical_and_horizontal_segments align = Some out ∧
         filter_vertical_and_horizontal_segments out = Some out ∧
         t1_strictly_increasing out ∧ t2_strictly_increasing out.
Proof.
  intros Hne H1 H2. exists (filter_rec align).
  destruct (filter_rec_strict_both align H1 H2) as [Hs1 Hs2].
  split_and!.
  - by apply filter_is_rec.
  - apply filter_unchanged. split.
    + intros H. by apply filter_rec_nil in H.
    + by apply strict_both_diagonal.
  - by apply t1_strictly_increasing_Sorted.
  - by apply t2_strictly_increasing_Sorted.
Qed.

Lemma filter_idempotent_on_monotone_witness :
  let align := [(0, 0); (1, 1); (1, 2); (2, 2); (3, 4)]%Q in
  (align ≠ [] ∧ t1_nondecreasing align ∧ t2_nondecreasing align) ∧
  ∃ out, filter_vertical_and_horizontal_segments align = Some out ∧
         filter_vertical_and_horizontal_segments out = Some out ∧
         t1_strictly_increasing out ∧ t2_strictly_increasing out.
Proof.
  intros align.
  assert (align ≠ []) as Hne by discriminate.
  assert (t1_nondecreasing align) as H1.
  { apply t1_nondecreasing_Sorted. subst align. sorted_points. }
  assert (t2_nondecreasing align) as H2.
  { apply t2_nondecreasing_Sorted. subst align. sorted_points. }
  split; [done|].
  exact (filter_idempotent_on_monotone align Hne H1 H2).
Defined.

End FilterMore.

(** ** The downsampling step beyond its contract *)

Module DownsampleMore.
Import Path PathFacts PathOrder Audio Sonify SonifyFacts FilterMore.

Lemma stride_from_sublist {A} (k skip : nat) (l : list A) :
  stride_from k skip l `sublist_of` l.
Proof.
  revert skip. induction l as [|x l IH]; intros skip; [constructor|].
  destruct skip; simpl; by constructor.
Qed.

Lemma stride_from_length {A} (k : nat) (l : list A) (skip : nat) :
  (1 ≤ k)%nat →
  length (stride_from k skip l) = ((length l - skip + k - 1) / k)%nat.
Proof.
  intros Hk. revert skip. induction l as [|x l IH]; intros skip.
  - simpl. symmetry. apply Nat.div_small. lia.
  - change (length (x :: l)) with (S (length l)).
    destruct skip as [|skip]; cbn [stride_from length]; rewrite IH.
    + replace (S (length l) - 0 + k - 1)%nat with (length l + 1 * k)%nat
        by lia.
      rewrite Nat.div_add by lia.
      destruct (decide (k - 1 ≤ length l)%nat).
      * replace (length l - (k - 1) + k - 1)%nat with (length l) by lia.
        lia.
      * replace (length l - (k - 1) + k - 1)%nat with (k - 1)%nat by lia.
        rewrite !Nat.div_small by lia. done.
    + by replace (S (length l) - S skip)%nat with (length l - skip)%nat
        by lia.
Qed.

Lemma middle_length (wp : Align) : length (middle wp) = (length wp - 2)%nat.
Proof. unfold middle. rewrite length_drop, length_take. lia. Qed.

Lemma to_seconds_nil (wp : Align) (hop_len : option Q) :
  to_seconds wp hop_len = [] ↔ wp = [].
Proof.
  destruct hop_len; simpl; [|done]. unfold scale.
  split; [apply fmap_nil_inv | by intros ->].
Qed.

(** The result of the step on a non-empty path, whatever the factor. *)
Lemma downsample_step_nonempty (wp : Align) (k : Z) :
  wp ≠ [] →
  ∃ first final,
    head wp = Some first ∧ last wp = Some final ∧
    downsample_step wp k
    = (mid ← slice_from0_step k (middle wp);
       Some ([first] ++ mid ++ [final])).
Proof.
  intros Hne. destruct wp as [|first rest]; [done|].
  destruct (last (first :: rest)) as [final|] eqn:Hl.
  2:{ by apply last_None in Hl. }
  exists first, final. split_and!; [done..|].
  unfold downsample_step. rewrite Hl. simpl.
  by destruct (slice_from0_step k (middle (first :: rest))).
Qed.

Lemma downsample_None (wp : Align) (k : Z) (hop_len : option Q) :
  get_preprocessed_wp wp k hop_len = None ↔ wp = [] ∨ k = 0%Z.
Proof.
  change (get_preprocessed_wp wp k hop_len)
    with (downsample_step (to_seconds wp hop_len) k).
  destruct (decide (wp = [])) as [->|Hne].
  { split; [by left|]. intros _. by destruct hop_len. }
  assert (to_seconds wp hop_len ≠ []) as Hne'
    by (by rewrite to_seconds_nil).
  destruct (downsample_step_nonempty _ k Hne') as (f & l & _ & _ & ->).
  unfold slice_from0_step.
  destruct (Z.eqb_spec k 0) as [->|Hk]; simpl.
  - split; [by right | done].
  - destruct (k <? 0)%Z; simpl; split; (done || by intros [?|?]).
Qed.

Lemma downsample_Some_nonempty
    (wp : Align) (k : Z) (hop_len : option Q) (out : Align) :
  get_preprocessed_wp wp k hop_len = Some out → out ≠ [].
Proof.
  change (get_preprocessed_wp wp k hop_len)
    with (downsample_step (to_seconds wp hop_len) k).
  unfold downsample_step. intros H.
  destruct (head (to_seconds wp hop_len)); [|done]. simpl in H.
  destruct (slice_from0_step k (middle (to_seconds wp hop_len))); [|done].
  simpl in H. destruct (last (to_seconds wp hop_len)); [|done].
  simpl in H. by simplify_eq.
Qed.

(** [get_preprocessed_wp] raises exactly when the stored path has no point
    or the factor is zero. *)
Theorem get_preprocessed_wp_fails_iff
    (wp : Align) (k : Z) (hop_len : option Q) :
  get_preprocessed_wp wp k hop_len = None ↔ wp = [] ∨ k = 0%Z.
Proof. apply downsample_None. Qed.

(** For a factor k >= 1 the downsampled path of a non-empty path of N
    points has [2 + ceil((N - 2) / k)] points, the difference being zero
    when N = 1: a one-point path becomes a two-point path. *)
Theorem get_preprocessed_wp_length
    (wp : Align) (k : Z) (hop_len : option Q) :
  wp ≠ [] → (1 ≤ k)%Z →
  ∃ out, get_preprocessed_wp wp k hop_len = Some out ∧
         length out
         = (2 + (length wp - 2 + Z.to_nat k - 1) / Z.to_nat k)%nat.
Proof.
  intros Hne Hk.
  change (get_preprocessed_wp wp k hop_len)
    with (downsample_step (to_seconds wp hop_len) k).
  assert (to_seconds wp hop_len ≠ []) as Hne'
    by (by rewrite to_seconds_nil).
  destruct (downsample_step_nonempty _ k Hne') as (f & l & _ & _ & ->).
  unfold slice_from0_step.
  destruct (Z.eqb_spec k 0) as [->|_]; [lia|].
  destruct (Z.ltb_spec k 0) as [?|_]; [lia|]. simpl.
  eexists. split; [done|]. simpl. rewrite length_app. simpl.
  rewrite stride_from_length by lia.
  rewrite middle_length, to_seconds_length, Nat.sub_0_r. lia.
Qed.

Lemma get_preprocessed_wp_length_witness :
  let wp := [(7, 9)]%Q in
  (wp ≠ [] ∧ (1 ≤ 3)%Z) ∧
  ∃ out, get_preprocessed_wp wp 3 None = Some out ∧
         length out
         = (2 + (length wp - 2 + Z.to_nat 3 - 1) / Z.to_nat 3)%nat.
Proof.
  intros wp.
  assert (wp ≠ []) as Hne by discriminate.
  assert (1 ≤ 3)%Z as Hk by lia.
  split; [done|]. exact (get_preprocessed_wp_length wp 3 None Hne Hk).
Defined.

Section sublist_sorted.
Context {A : Type} (R : A → A → Prop) `{!Transitive R}.

Lemma StronglySorted_sublist (l1 l2 : list A) :
  l1 `sublist_of` l2 → StronglySorted R l2 → StronglySorted R l1.
Proof.
  induction 1 as [|x l1 l2 Hsub IH|x l1 l2 Hsub IH]; intros Hs; [done|..].
  - apply StronglySorted_inv in Hs as [Hs Hx]. constructor; [by apply IH|].
    rewrite Forall_forall in Hx. apply Forall_forall. intros y Hy.
    apply Hx. by apply (sublist_subseteq _ _ Hsub).
  - apply StronglySorted_inv in Hs as [Hs _]. by apply IH.
Qed.

Lemma Sorted_sublist (l1 l2 : list A) :
  l1 `sublist_of` l2 → Sorted R l2 → Sorted R l1.
Proof.
  intros Hsub Hs. apply StronglySorted_Sorted.
  apply (StronglySorted_sublist l1 l2 Hsub).
  by apply Sorted_StronglySorted.
Qed.
End sublist_sorted.

Lemma downsample_step_sublist (wp : Align) (k : Z) :
  (2 ≤ length wp)%nat → (1 ≤ k)%Z →
  ∃ out, downsample_step wp k = Some out ∧ out `sublist_of` wp.
Proof.
  intros HN Hk. destruct (ends_split wp HN) as (first & mid & final & ->).
  eexists. split; [by apply downsample_step_ends|].
  constructor. apply sublist_app; [apply stride_from_sublist | done].
Qed.

(** For a path of N >= 2 points and a factor k >= 1 the downsampled path is
    a subsequence of the loaded path, in the same order, so it is not longer
    and it is strictly increasing in the first coordinate when the loaded
    path is. *)
Theorem downsample_subsequence
    (wp : Align) (k : Z) (hop_len : option Q) :
  (2 ≤ length wp)%nat → (1 ≤ k)%Z →
  ∃ out, get_preprocessed_wp wp k hop_len = Some out ∧
         out `sublist_of` to_seconds wp hop_len ∧
         (length out ≤ length wp)%nat ∧
         (t1_strictly_increasing (to_seconds wp hop_len) →
          t1_strictly_increasing out).
Proof.
  intros HN Hk.
  destruct (downsample_step_sublist (to_seconds wp hop_len) k)
    as (out & Hout & Hsub); [by rewrite to_seconds_length | done |].
  exists out. split_and!; [done..| |].
  - rewrite <- (to_seconds_length wp hop_len). by apply sublist_length.
  - rewrite !t1_strictly_increasing_Sorted.
    apply Sorted_sublist; [|done].
    intros p q r ? ?. by apply Qlt_trans with q.1.
Qed.

Lemma downsample_subsequence_witness :
  let wp := [(0, 0); (1, 1); (2, 2); (3, 3); (4, 4)]%Q in
  ((2 ≤ length wp)%nat ∧ (1 ≤ 2)%Z) ∧
  ∃ out, get_preprocessed_wp wp 2 None = Some out ∧
         out `sublist_of` wp ∧
         (length out ≤ length wp)%nat ∧
         (t1_strictly_increasing wp → t1_strictly_increasing out).
Proof.
  intros wp.
  assert (2 ≤ length wp)%nat as HN by (simpl; lia).
  assert (1 ≤ 2)%Z as Hk by lia.
  split; [done|]. exact (downsample_subsequence wp 2 None HN Hk).
Defined.

End DownsampleMore.

(** ** The path given to time-scale modification, and the mix *)

Module SonifyMore.
Import Path PathFacts PathOrder Audio Sonify SonifyFacts FilterMore.
Import DownsampleMore Reweighting.

Lemma to_seconds_nondecreasing (wp : Align) (hop_len : option Q) :
  hop_nonnegative hop_len →
  (t1_nondecreasing wp → t1_nondecreasing (to_seconds wp hop_len)) ∧
  (t2_nondecreasing wp → t2_nondecreasing (to_seconds wp hop_len)).
Proof.
  intros Hh. destruct hop_len as [h|]; [|done]. simpl in *.
  rewrite !t1_nondecreasing_Sorted, !t2_nondecreasing_Sorted.
  unfold scale. split; apply Sorted_fmap; intros p q Hpq; simpl;
    by apply Qmult_le_compat_r.
Qed.

Lemma le_t1_trans : Transitive (λ p q : Point, p.1 <= q.1)%Q.
Proof. intros p q r ? ?. by apply Qle_trans with q.1. Qed.

Lemma le_t2_trans : Transitive (λ p q : Point, p.2 <= q.2)%Q.
Proof. intros p q r ? ?. by apply Qle_trans with q.2. Qed.

Lemma flipud_strict (a : Align) :
  Sorted (λ p q, p.1 < q.1)%Q a → Sorted (λ p q, p.2 < q.2)%Q a →
  t1_strictly_increasing (flipud a) ∧ t2_strictly_increasing (flipud a).
Proof.
  intros H1 H2.
  rewrite t1_strictly_increasing_Sorted, t2_strictly_increasing_Sorted.
  unfold flipud. split; eapply Sorted_fmap; [|exact H2| |exact H1]; done.
Qed.

(** When the stored path (N >= 2 points) never goes back in either
    coordinate, the factor is at least 1 and the conversion factor is not
    negative, the path that reaches the time-scale modification is strictly
    increasing in both coordinates. *)
Theorem tsm_path_strictly_increasing
    (wp : Align) (k : Z) (hop_len : option Q) :
  (2 ≤ length wp)%nat → (1 ≤ k)%Z → hop_nonnegative hop_len →
  t1_nondecreasing wp → t2_nondecreasing wp →
  ∃ path, tsm_warping_path wp k hop_len = Some path ∧
          t1_strictly_increasing path ∧ t2_strictly_increasing path.
Proof.
  intros HN Hk Hh H1 H2.
  destruct (to_seconds_nondecreasing wp hop_len Hh) as [Hs1 Hs2].
  specialize (Hs1 H1). specialize (Hs2 H2).
  destruct (downsample_step_sublist (to_seconds wp hop_len) k)
    as (ds & Hds & Hsub); [by rewrite to_seconds_length | done |].
  assert (ds ≠ []) as Hne by (by eapply downsample_Some_nonempty).
  assert (t1_nondecreasing ds) as Hd1.
  { apply t1_nondecreasing_Sorted.
    apply (@Sorted_sublist _ _ le_t1_trans _ _ Hsub).
    by apply t1_nondecreasing_Sorted. }
  assert (t2_nondecreasing ds) as Hd2.
  { apply t2_nondecreasing_Sorted.
    apply (@Sorted_sublist _ _ le_t2_trans _ _ Hsub).
    by apply t2_nondecreasing_Sorted. }
  destruct (filter_rec_strict_both ds Hd1 Hd2) as [Hf1 Hf2].
  exists (flipud (filter_rec ds)). split; [|by apply flipud_strict].
  unfold tsm_warping_path.
  change (get_preprocessed_wp wp k hop_len)
    with (downsample_step (to_seconds wp hop_len) k).
  rewrite Hds. simpl. by rewrite filter_is_rec.
Qed.

Lemma tsm_path_strictly_increasing_witness :
  let wp := [(0, 0); (1, 0); (1, 1); (2, 1); (3, 4)]%Q in
  ((2 ≤ length wp)%nat ∧ (1 ≤ 1)%Z ∧ hop_nonnegative (Some (1 # 2)) ∧
   t1_nondecreasing wp ∧ t2_nondecreasing wp) ∧
  ∃ path, tsm_warping_path wp 1 (Some (1 # 2)) = Some path ∧
          t1_strictly_increasing path ∧ t2_strictly_increasing path.
Proof.
  intros wp.
  assert (2 ≤ length wp)%nat as HN by (simpl; lia).
  assert (1 ≤ 1)%Z as Hk by lia.
  assert (hop_nonnegative (Some (1 # 2))) as Hh by (simpl; lra).
  assert (t1_nondecreasing wp) as H1.
  { apply t1_nondecreasing_Sorted. subst wp. sorted_points. }
  assert (t2_nondecreasing wp) as H2.
  { apply t2_nondecreasing_Sorted. subst wp. sorted_points. }
  split; [done|].
  exact (tsm_path_strictly_increasing wp 1 (Some (1 # 2)) HN Hk Hh H1 H2).
Defined.

End SonifyMore.

(** ** Mixing two channels *)

Module MixMore.
Import Path PathFacts Audio Sonify SonifyFacts DownsampleMore Reweighting.

Lemma reweighting_length (x_stereo : Stereo) :
  length (channel_volume_reweighting x_stereo) = length x_stereo.
Proof. unfold channel_volume_reweighting. apply length_fmap. Qed.

Lemma take_min_length {A} (l : list A) (n : nat) :
  take (n `min` length l) l = take n l.
Proof.
  destruct (decide (n ≤ length l)%nat).
  - by rewrite Nat.min_l.
  - rewrite Nat.min_r by lia. by rewrite !take_ge by lia.
Qed.

(** The two columns of the buffer before any reweighting. *)
Lemma mix_raw_columns (l r : list xreal) (pad : bool) :
  (mix_separate_channels l r false pad).*1
  = (if pad then l ++ replicate (length r - length l) (Fin 0)
     else take (length r) l) ∧
  (mix_separate_channels l r false pad).*2
  = (if pad then r ++ replicate (length l - length r) (Fin 0)
     else take (length l) r).
Proof.
  unfold mix_separate_channels, pad_right. destruct pad.
  - destruct (Nat.ltb_spec (length r) (length l)) as [H|H].
    + rewrite length_app, length_replicate.
      replace (length l `min` (length r + (length l - length r)))%nat
        with (length l) by lia.
      rewrite !take_ge by (rewrite ?length_app, ?length_replicate; lia).
      rewrite fst_zip, snd_zip
        by (rewrite ?length_app, ?length_replicate; lia).
      replace (length r - length l)%nat with 0%nat by lia.
      by rewrite app_nil_r.
    + destruct (Nat.ltb_spec (length l) (length r)) as [H'|H'].
      * rewrite length_app, length_replicate.
        replace ((length l + (length r - length l)) `min` length r)%nat
          with (length r) by lia.
        rewrite !take_ge by (rewrite ?length_app, ?length_replicate; lia).
        rewrite fst_zip, snd_zip
          by (rewrite ?length_app, ?length_replicate; lia).
        replace (length l - length r)%nat with 0%nat by lia.
        by rewrite app_nil_r.
      * replace (length r - length l)%nat with 0%nat by lia.
        replace (length l - length r)%nat with 0%nat by lia.
        rewrite !app_nil_r, !take_ge by lia.
        by rewrite fst_zip, snd_zip by lia.
  - rewrite fst_zip, snd_zip by (rewrite !length_take; lia).
    split.
    + by rewrite Nat.min_comm, take_min_length.
    + by rewrite take_min_length.
Qed.

Lemma mix_reweighted (l r : list xreal) (pad : bool) :
  mix_separate_channels l r true pad
  = channel_volume_reweighting (mix_separate_channels l r false pad).
Proof.
  unfold mix_separate_channels.
  by destruct pad, (length r <? length l)%nat, (length l <? length r)%nat.
Qed.

Lemma mix_left_column (l r : list xreal) (reweighted pad : bool) :
  (mix_separate_channels l r reweighted pad).*1
  = (if pad then l ++ replicate (length r - length l) (Fin 0)
     else take (length r) l).
Proof.
  destruct reweighted; [|apply mix_raw_columns].
  rewrite mix_reweighted.
  destruct (reweighted_columns (mix_separate_channels l r false pad))
    as [-> _].
  apply mix_raw_columns.
Qed.

(** The mixed buffer is as long as the shorter channel, or, with padding,
    as the longer one, with or without reweighting. *)
Theorem mix_length (l r : list xreal) (reweighted pad : bool) :
  length (mix_separate_channels l r reweighted pad)
  = if pad then (length l `max` length r)%nat
    else (length l `min` length r)%nat.
Proof.
  rewrite <- (length_fmap fst), mix_left_column. destruct pad.
  - rewrite length_app, length_replicate. lia.
  - rewrite length_take. lia.
Qed.

(** Without reweighting, each column of the mix is the channel cut to the
    length of the other one or, with padding, the channel followed by as
    many zeros as it is shorter than the other one.  With reweighting the
    left column is still that. *)
Theorem mix_columns (l r : list xreal) (reweighted pad : bool) :
  (mix_separate_channels l r reweighted pad).*1
  = (if pad then l ++ replicate (length r - length l) (Fin 0)
     else take (length r) l) ∧
  (mix_separate_channels l r false pad).*2
  = (if pad then r ++ replicate (length l - length r) (Fin 0)
     else take (length l) r).
Proof. split; [apply mix_left_column | apply mix_raw_columns]. Qed.

(** [sonifyWithTSMSync] raises exactly when the stored path has no point or
    the factor is zero.  Otherwise the left channel of the result is the
    beginning of the unmodified recording [y1], and the result is as long as
    the shorter of [y1] and the time-scaled [y2]. *)
Theorem sonify_reference_channel
    (tsmvar_hybrid : list xreal → Align → list xreal)
    (y1 y2 : list xreal) (wp : Align) (k : Z) (hop_len : option Q) :
  match sonifyWithTSMSync tsmvar_hybrid y1 y2 wp k hop_len with
  | Some y_mixed =>
      ∃ path, tsm_warping_path wp k hop_len = Some path ∧
              length y_mixed
              = (length y1 `min` length (tsmvar_hybrid y2 path))%nat ∧
              y_mixed.*1 = take (length y_mixed) y1
  | None => wp = [] ∨ k = 0%Z
  end.
Proof.
  unfold sonifyWithTSMSync, tsm_warping_path.
  destruct (get_preprocessed_wp wp k hop_len) as [ds|] eqn:Hds; simpl.
  2:{ by apply downsample_None in Hds. }
  apply downsample_Some_nonempty in Hds.
  rewrite (filter_is_rec ds Hds). simpl.
  eexists. split; [done|].
  set (y2_tsm := tsmvar_hybrid y2 (flipud (filter_rec ds))).
  assert (length (mix_separate_channels y1 y2_tsm true false)
          = (length y1 `min` length y2_tsm)%nat) as Hlen.
  { rewrite <- (length_fmap fst), mix_left_column, length_take. lia. }
  split; [done|]. rewrite mix_left_column, Hlen.
  by rewrite Nat.min_comm, take_min_length.
Qed.

End MixMore.

(** ** Reweighting twice, and a silent reference channel *)

Module ReweightingMore.
Import Audio Reweighting.

(** On a buffer of finite samples in which both channels have a nonzero
    mean squared amplitude, reweighting a second time changes nothing. *)
Theorem reweighting_idempotent (x_stereo : Stereo) (mse_left mse_right : R) :
  Forall (λ row, is_finite row.1 ∧ is_finite row.2) x_stereo →
  mean_square (x_stereo.*1) = Fin mse_left → mse_left ≠ 0%R →
  mean_square (x_stereo.*2) = Fin mse_right → mse_right ≠ 0%R →
  channel_volume_reweighting (channel_volume_reweighting x_stereo)
  = channel_volume_reweighting x_stereo.
Proof.
  intros Hfin Hl Hl0 Hr Hr0.
  destruct (reweighting_finite x_stereo mse_right Hfin Hr Hr0)
    as (ml & Hl' & H1 & _ & H2 & Hall).
  rewrite Hl in Hl'. injection Hl' as <-.
  set (out := channel_volume_reweighting x_stereo) in *.
  assert (0 < mse_left)%R as Hpos.
  { destruct (finite_channel (x_stereo.*1)) as [ls Hls].
    { apply Forall_fmap. eapply Forall_impl; [done|]. by intros ? [? ?]. }
    rewrite Hls in Hl.
    assert (ls ≠ []) as Hne.
    { intros ->. change (Fin <$> []) with (@nil xreal) in Hl.
      by rewrite mean_square_empty in Hl. }
    rewrite (mean_square_finite ls Hne) in Hl. injection Hl as Hl.
    assert (0 <= mse_left)%R; [|lra]. rewrite <- Hl.
    apply Rle_mult_inv_pos; [apply sum_sq_nonneg|].
    apply lt_0_INR. destruct ls; [done | simpl; lia]. }
  unfold channel_volume_reweighting at 1. rewrite H1, Hl, H2.
  rewrite (gain_finite mse_left mse_left) by lra.
  replace (mse_left / mse_left)%R with 1%R by (by field).
  rewrite sqrt_1. rewrite <- (list_fmap_id out) at 2.
  apply Forall_fmap_ext, Forall_forall. intros [a b] Hrow. simpl.
  f_equal. rewrite Forall_forall in Hall.
  assert (is_finite b) as Hb.
  { apply Hall. apply list_elem_of_fmap. by exists (a, b). }
  destruct b as [rb| | |]; try done. simpl. f_equal. ring.
Qed.

Lemma reweighting_idempotent_witness :
  let x_stereo := [(Fin 3, Fin 1); (Fin 4, Fin 2)] in
  let mse_left := ((3 * 3 + (4 * 4 + 0)) / INR 2)%R in
  let mse_right := ((1 * 1 + (2 * 2 + 0)) / INR 2)%R in
  (Forall (λ row, is_finite row.1 ∧ is_finite row.2) x_stereo ∧
   mean_square (x_stereo.*1) = Fin mse_left ∧ mse_left ≠ 0%R ∧
   mean_square (x_stereo.*2) = Fin mse_right ∧ mse_right ≠ 0%R) ∧
  channel_volume_reweighting (channel_volume_reweighting x_stereo)
  = channel_volume_reweighting x_stereo.
Proof.
  intros x_stereo mse_left mse_right.
  assert (Forall (λ row, is_finite row.1 ∧ is_finite row.2) x_stereo)
    as Hfin by (by repeat constructor).
  assert (mean_square (x_stereo.*1) = Fin mse_left) as Hl.
  { exact (mean_square_finite [3; 4]%R ltac:(done)). }
  assert (mse_left ≠ 0%R) as Hl0.
  { unfold mse_left. simpl. lra. }
  assert (mean_square (x_stereo.*2) = Fin mse_right) as Hr.
  { exact (mean_square_finite [1; 2]%R ltac:(done)). }
  assert (mse_right ≠ 0%R) as Hr0.
  { unfold mse_right. simpl. lra. }
  split; [done|].
  exact (reweighting_idempotent x_stereo mse_left mse_right
           Hfin Hl Hl0 Hr Hr0).
Defined.

(** On a buffer of finite samples whose first channel is silent and whose
    second channel is not, the reweighting silences the second channel. *)
Theorem reweighting_silent_reference (x_stereo : Stereo) (mse_right : R) :
  Forall (λ row, is_finite row.1 ∧ is_finite row.2) x_stereo →
  mean_square (x_stereo.*1) = Fin 0 →
  mean_square (x_stereo.*2) = Fin mse_right → mse_right ≠ 0%R →
  Forall (λ row, row.2 = Fin 0) (channel_volume_reweighting x_stereo).
Proof.
  intros Hfin Hl Hr Hr0.
  destruct (reweighting_finite x_stereo mse_right Hfin Hr Hr0)
    as (ml & Hl' & _ & H2 & _ & _).
  rewrite Hl in Hl'. injection Hl' as <-.
  apply (proj1 (Forall_fmap snd (λ s, s = Fin 0) _)).
  rewrite H2. apply Forall_fmap, Forall_fmap, Forall_forall.
  intros [a b] Hrow. simpl. rewrite Forall_forall in Hfin.
  destruct (Hfin _ Hrow) as [_ Hb]. simpl in Hb.
  destruct b as [rb| | |]; try done. simpl. f_equal.
  unfold Rdiv. rewrite Rmult_0_l, sqrt_0. ring.
Qed.

Lemma reweighting_silent_reference_witness :
  let x_stereo := [(Fin 0, Fin 1); (Fin 0, Fin 2)] in
  let mse_right := ((1 * 1 + (2 * 2 + 0)) / INR 2)%R in
  (Forall (λ row, is_finite row.1 ∧ is_finite row.2) x_stereo ∧
   mean_square (x_stereo.*1) = Fin 0 ∧
   mean_square (x_stereo.*2) = Fin mse_right ∧ mse_right ≠ 0%R) ∧
  Forall (λ row, row.2 = Fin 0) (channel_volume_reweighting x_stereo).
Proof.
  intros x_stereo mse_right.
  assert (Forall (λ row, is_finite row.1 ∧ is_finite row.2) x_stereo)
    as Hfin by (by repeat constructor).
  assert (mean_square (x_stereo.*1) = Fin 0) as Hl.
  { etransitivity; [exact (mean_square_finite [0; 0]%R ltac:(done))|].
    f_equal. simpl. lra. }
  assert (mean_square (x_stereo.*2) = Fin mse_right) as Hr.
  { exact (mean_square_finite [1; 2]%R ltac:(done)). }
  assert (mse_right ≠ 0%R) as Hr0.
  { unfold mse_right. simpl. lra. }
  split; [done|].
  exact (reweighting_silent_reference x_stereo mse_right Hfin Hl Hr Hr0).
Defined.

End ReweightingMore.

(** ** Annotation files and ground truth, further *)

Module GroundTruthMore.
Import Path EvalTools GroundTruth.

(** The timestamp a parsed annotation file gives for a measure is that of
    the last row carrying this measure; a measure on no row is absent. *)
Theorem parseAnnotationFile_last_row (annotfile : AnnotRows) (m : Z) :
  parseAnnotationFile annotfile !! m
  = last (fst <$> filter (λ row, row.2 = m) annotfile).
Proof.
  induction annotfile as [|[t m'] rows IH] using rev_ind; [done|].
  rewrite parseAnnotationFile_snoc, filter_app, fmap_app.
  destruct (decide (m' = m)) as [->|Hne].
  - rewrite filter_cons_True by done. rewrite filter_nil. csimpl.
    by rewrite lookup_insert_eq, last_snoc.
  - rewrite filter_cons_False by done. rewrite filter_nil. csimpl.
    by rewrite lookup_insert_ne, app_nil_r.
Qed.

Lemma mapM_fmap_swap {A B C} (f : A → option B) (g : B → C) (l : list A) :
  mapM (λ x, g <$> f x) l = fmap g <$> mapM f l.
Proof.
  induction l as [|x l IH]; [done|]. csimpl.
  destruct (f x); [|done]. csimpl. unfold mbind in *. rewrite IH.
  by destruct (mapM f l).
Qed.

(** Exchanging the two annotation files exchanges the two timestamps of
    every pair and leaves the measure numbers as they are. *)
Theorem getGroundTruthTimestamps_swap
    (annotfile1 annotfile2 : AnnotRows) (allEvalMeasures : gset Z) :
  getGroundTruthTimestamps annotfile2 annotfile1 allEvalMeasures
  = (λ r : list (Q * Q) * list Z, (prod_swap <$> r.1, r.2))
    <$> getGroundTruthTimestamps annotfile1 annotfile2 allEvalMeasures.
Proof.
  unfold getGroundTruthTimestamps.
  set (gt1 := parseAnnotationFile annotfile1).
  set (gt2 := parseAnnotationFile annotfile2).
  replace (dom gt2 ∩ dom gt1 ∩ allEvalMeasures)
    with (dom gt1 ∩ dom gt2 ∩ allEvalMeasures)
    by (f_equal; apply (comm_L (∩))).
  set (ms := sorted _).
  rewrite (mapM_ext _ (λ m, prod_swap <$>
                            (t1 ← gt1 !! m; t2 ← gt2 !! m; Some (t1, t2)))).
  2:{ intros m. by destruct (gt1 !! m), (gt2 !! m). }
  rewrite mapM_fmap_swap.
  by destruct (mapM _ ms).
Qed.


End GroundTruthMore.

(** ** The alignment errors, further *)

Module EvaluatorMore.
Import Path PathFacts PathOrder EvalTools GroundTruth Evaluator.
Import GroundTruthMore.







Lemma interp_from_at_point (rest : Align) :
  ∀ (p a : Point) (j : nat) (x : Q),
    Sorted (λ p q : Point, p.1 < q.1)%Q (p :: rest) →
    (p :: rest) !! j = Some a → (x == a.1)%Q →
    interp_from x p rest = a.2.
Proof.
  induction rest as [|q rest IH]; intros p a j x Hs Ha Hx.
  { destruct j; simpl in Ha; by simplify_eq. }
  destruct j as [|j]; simpl in Ha.
  { simplify_eq. by apply interp_from_at_start. }
  pose proof Hs as Hs0. apply Sorted_inv in Hs as [Hs _].
  assert (q.1 <= a.1)%Q
    by (apply (sorted_lookup_le (q :: rest) 0 j); [done|lia|done..]).
  simpl interp_from.
  assert (Qlt_bool x q.1 = false) as -> by (apply Qlt_bool_false; lra).
  by apply (IH q a j).
Qed.

Lemma interp1_at_point (samples : Align) (a : Point) (j : nat) (x : Q) :
  t1_strictly_increasing samples → samples !! j = Some a → (x == a.1)%Q →
  interp1 samples x = Some a.2.
Proof.
  intros Hs Ha Hx. apply t1_strictly_increasing_Sorted in Hs.
  destruct samples as [|first rest]; [done|].
  destruct (last (first :: rest)) as [final|] eqn:Hl.
  2:{ by apply last_None in Hl. }
  pose proof Hl as Hl'. rewrite last_lookup in Hl'.
  pose proof (lookup_lt_Some _ _ _ Ha) as Hj.
  assert (first.1 <= a.1)%Q
    by (apply (sorted_lookup_le (first :: rest) 0 j); [done|lia|done..]).
  assert (a.1 <= final.1)%Q
    by (apply (sorted_lookup_le (first :: rest) j
                 (pred (length (first :: rest)))); [done|lia|done..]).
  unfold interp1. rewrite Hl. simpl.
  destruct (Qlt_bool final.1 x) eqn:E1.
  { apply Qlt_bool_true in E1. destruct j as [|j]; simpl in *.
    - simplify_eq. lra.
    - lra. }
  destruct (Qlt_bool x first.1) eqn:E2.
  { apply Qlt_bool_true in E2. lra. }
  f_equal. by apply (interp_from_at_point rest first a j).
Qed.

(** Each error is the interpolated value at the anchor minus the annotated
    timestamp. *)
Lemma calc_errors_pointwise
    (hypalign : Align) (annotfile1 annotfile2 : AnnotRows)
    (allEvalMeasures : gset Z) (frames : bool)
    (gt : list (Q * Q)) (measNums : list Z) (err : list Q) (ms : list Z) :
  getGroundTruthTimestamps annotfile1 annotfile2 allEvalMeasures
  = Some (gt, measNums) →
  calcAlignErrors_single hypalign annotfile1 annotfile2 allEvalMeasures
                         frames = Some (err, ms) →
  ∀ i t1 t2, gt !! i = Some (t1, t2) →
    ∃ v, interp1 (if frames then frames_to_seconds hypalign else hypalign) t1
         = Some v ∧ err !! i = Some (v - t2)%Q.
Proof.
  intros Hgt Hcalc i t1 t2 Hi. unfold calcAlignErrors_single in Hcalc.
  rewrite Hgt in Hcalc. simpl in Hcalc.
  set (path := if frames then frames_to_seconds hypalign else hypalign) in *.
  destruct gt as [|g gt]; [done|].
  destruct (np_interp ((g :: gt).*1) (path.*1) (path.*2)) as [pred|] eqn:Hp;
    [|done].
  simpl in Hcalc. simplify_eq. unfold np_interp in Hp.
  destruct (length path.*1 =? 0)%nat; [done|].
  destruct (negb (length path.*1 =? length path.*2)%nat); [done|].
  rewrite zip_fst_snd in Hp. apply mapM_Some in Hp.
  assert ((g :: gt).*1 !! i = Some t1) as H1
    by (by rewrite list_lookup_fmap, Hi).
  assert ((g :: gt).*2 !! i = Some t2) as H2
    by (by rewrite list_lookup_fmap, Hi).
  destruct (Forall2_lookup_l _ _ _ _ _ Hp H1) as (v & Hv & Hint).
  exists v. split; [done|]. rewrite lookup_zip_with, Hv.
  csimpl in *. by rewrite H2.
Qed.






(** When the path in seconds is strictly increasing and an anchor [t1]
    equals the first coordinate of a path point, the prediction is exactly
    that point's second coordinate: the error is it minus [t2]. *)
Theorem error_at_path_point
    (hypalign : Align) (annotfile1 annotfile2 : AnnotRows)
    (allEvalMeasures : gset Z) (frames : bool)
    (gt : list (Q * Q)) (measNums : list Z) (err : list Q)
    (a : Point) (i j : nat) (t1 t2 : Q) :
  let path := if frames then frames_to_seconds hypalign else hypalign in
  t1_strictly_increasing path →
  getGroundTruthTimestamps annotfile1 annotfile2 allEvalMeasures
  = Some (gt, measNums) →
  calcAlignErrors_single hypalign annotfile1 annotfile2 allEvalMeasures
                         frames = Some (err, measNums) →
  gt !! i = Some (t1, t2) → path !! j = Some a → (t1 == a.1)%Q →
  err !! i = Some (a.2 - t2)%Q.
Proof.
  intros path Hs Hgt Hcalc Hi Ha Ht.
  destruct (calc_errors_pointwise _ _ _ _ _ _ _ _ _ Hgt Hcalc i t1 t2 Hi)
    as (v & Hv & He). fold path in Hv.
  rewrite (interp1_at_point path a j t1 Hs Ha Ht) in Hv. by simplify_eq.
Qed.

Lemma error_at_path_point_witness :
  let hypalign := [(0, 10); (2, 14); (4, 15)]%Q in
  let annotfile1 := [(2, 7%Z)]%Q in
  let annotfile2 := [(13, 7%Z)]%Q in
  (t1_strictly_increasing hypalign ∧
   getGroundTruthTimestamps annotfile1 annotfile2 {[7%Z]}
   = Some ([(2, 13)]%Q, [7%Z]) ∧
   calcAlignErrors_single hypalign annotfile1 annotfile2 {[7%Z]} false
   = Some ([14 - 13]%Q, [7%Z]) ∧
   [(2, 13)]%Q !! 0%nat = Some (2, 13)%Q ∧
   hypalign !! 1%nat = Some (2, 14)%Q ∧ (2 == 2)%Q) ∧
  [14 - 13]%Q !! 0%nat = Some (14 - 13)%Q.
Proof.
  intros hypalign annotfile1 annotfile2.
  assert (t1_strictly_increasing hypalign) as Hs.
  { apply t1_strictly_increasing_Sorted. subst hypalign. sorted_points. }
  assert (getGroundTruthTimestamps annotfile1 annotfile2 {[7%Z]}
          = Some ([(2, 13)]%Q, [7%Z])) as Hgt by (vm_compute; reflexivity).
  assert (calcAlignErrors_single hypalign annotfile1 annotfile2 {[7%Z]}
            false = Some ([14 - 13]%Q, [7%Z])) as Hcalc
    by (vm_compute; reflexivity).
  assert (2 == 2)%Q as Ht by reflexivity.
  split; [done|].
  exact (error_at_path_point hypalign annotfile1 annotfile2 {[7%Z]} false
           [(2, 13)]%Q [7%Z] [14 - 13]%Q (2, 14)%Q 0%nat 1%nat 2%Q 13%Q
           Hs Hgt Hcalc eq_refl eq_refl Ht).
Defined.

End EvaluatorMore.

(** ** The evaluation measure set *)

Module EvalMeasuresFacts.
Import EvalMeasures.

Lemma split_nonempty (sep : ascii) (s : string) : split sep s ≠ [].
Proof.
  induction s as [|c s IH]; [done|]. simpl.
  destruct (Ascii.eqb c sep); [done|]. by destruct (split sep s).
Qed.



Section builtins.
Variable strip : string → string.
Variable int : string → option Z.







(** Lines of other movements are never parsed: dropping them from the file
    changes nothing, whatever they contain. *)
Theorem get_eval_measure_set_other_lines
    (file : list string) (mov_id : string) :
  get_eval_measure_set strip int file mov_id
  = get_eval_measure_set strip int
      (filter (λ line, head (split ","%char (strip line)) = Some mov_id)
              file)
      mov_id.
Proof.
  unfold get_eval_measure_set. f_equal.
  generalize (Some (∅ : gmap Z Z)). induction file as [|line file IH];
    intros acc; [done|]. simpl.
  destruct (decide (head (split ","%char (strip line)) = Some mov_id))
    as [Hh|Hh].
  - rewrite filter_cons_True by done. simpl. apply IH.
  - rewrite filter_cons_False by done. rewrite <- IH. f_equal.
    destruct acc as [d|]; [|done]. simpl.
    destruct (split ","%char (strip line)) as [|id fields] eqn:Hs.
    { by apply split_nonempty in Hs. }
    simpl in Hh. case_bool_decide; [|done]. congruence.
Qed.

End builtins.

End EvalMeasuresFacts.

(** ** Scenario files: dictionaries in insertion order *)

Module ScenarioFacts.
Import EvalMeasures Scenario.

Section dict.
Context {V : Type}.
Implicit Types (d : list (string * V)) (k : string) (v : V).

Lemma dict_set_keys d k v :
  (dict_set d k v).*1 = if decide (k ∈ d.*1) then d.*1 else d.*1 ++ [k].
Proof.
  induction d as [|[k' v'] d IH]; [done|]. simpl.
  case_bool_decide as Hk.
  - subst k'. rewrite decide_True by left. done.
  - csimpl. rewrite IH. destruct (decide (k ∈ d.*1)) as [Hin|Hin].
    + rewrite decide_True by (by right). done.
    + rewrite decide_False; [done|].
      intros [?|?]%elem_of_cons; [congruence | done].
Qed.

(** Reading after writing. *)
Lemma dict_get_set d k v k' :
  dict_get (dict_set d k v) k'
  = if decide (k = k') then Some v else dict_get d k'.
Proof.
  induction d as [|[k0 v0] d IH]; simpl.
  - case_bool_decide; case_decide; congruence.
  - case_bool_decide as H0; simpl.
    + subst k0. case_bool_decide; case_decide; congruence.
    + rewrite IH. case_bool_decide; case_decide; congruence.
Qed.

Lemma fold_dict_set_snoc d (l : list (string * V)) k v :
  foldl (λ d kv, dict_set d kv.1 kv.2) d (l ++ [(k, v)])
  = dict_set (foldl (λ d kv, dict_set d kv.1 kv.2) d l) k v.
Proof. by rewrite foldl_app. Qed.

Lemma first_occurrences_snoc (l : list string) k :
  first_occurrences (l ++ [k])
  = if decide (k ∈ first_occurrences l) then first_occurrences l
    else first_occurrences l ++ [k].
Proof.
  unfold first_occurrences. rewrite reverse_snoc. simpl.
  destruct (decide_rel elem_of k (reverse l)) as [Hin|Hin].
  - rewrite decide_True; [done|].
    by rewrite elem_of_reverse, elem_of_remove_dups.
  - rewrite decide_False, reverse_cons; [done|].
    by rewrite elem_of_reverse, elem_of_remove_dups.
Qed.

(** The keys of the dictionary filled from a list of bindings are the
    distinct keys in the order of their first occurrence, and the value of
    a key is that of its last binding. *)
Lemma fold_dict_set_spec (l : list (string * V)) :
  (foldl (λ d kv, dict_set d kv.1 kv.2) [] l).*1
  = first_occurrences (l.*1) ∧
  ∀ k, dict_get (foldl (λ d kv, dict_set d kv.1 kv.2) [] l) k
       = last (snd <$> filter (λ kv, kv.1 = k) l).
Proof.
  induction l as [|[k v] l [IHk IHv]] using rev_ind; [done|].
  rewrite fold_dict_set_snoc. split.
  - rewrite dict_set_keys, fmap_app. csimpl.
    by rewrite first_occurrences_snoc, IHk.
  - intros k'. rewrite dict_get_set, filter_app, fmap_app.
    case_decide as Hk.
    + subst k'. rewrite filter_cons_True by done. rewrite filter_nil.
      csimpl. by rewrite last_snoc.
    + rewrite filter_cons_False by done. rewrite filter_nil. csimpl.
      by rewrite app_nil_r.
Qed.
End dict.

(** *** Splitting and joining *)

Lemma append_assoc (a b c : string) :
  String.append (String.append a b) c = String.append a (String.append b c).
Proof.
  induction a as [|x a IH]; [done|].
  change (String x (String.append (String.append a b) c)
          = String x (String.append a (String.append b c))).
  by rewrite IH.
Qed.

Lemma append_nil_r (a : string) : String.append a EmptyString = a.
Proof.
  induction a as [|x a IH]; [done|].
  change (String x (String.append a EmptyString) = String x a).
  by rewrite IH.
Qed.

Lemma join_cons_char (sep : string) (c : ascii) (piece : string)
    (pieces : list string) :
  join sep (String c piece :: pieces) = String c (join sep (piece :: pieces)).
Proof. by destruct pieces. Qed.

(** Joining the pieces of a split with the separator gives the string
    back. *)
Lemma join_split (sep : ascii) (s : string) :
  join (String sep EmptyString) (split sep s) = s.
Proof.
  induction s as [|c s IH]; [done|]. simpl.
  destruct (Ascii.eqb_spec c sep) as [->|_].
  - destruct (split sep s) as [|piece pieces] eqn:Hs.
    { by apply EvalMeasuresFacts.split_nonempty in Hs. }
    simpl. by rewrite <- IH.
  - destruct (split sep s) as [|piece pieces] eqn:Hs.
    { by apply EvalMeasuresFacts.split_nonempty in Hs. }
    by rewrite join_cons_char, IH.
Qed.

Lemma join_take_prefix (sep : string) (pieces : list string) (n : nat) :
  ∃ rest, join sep pieces = String.append (join sep (take n pieces)) rest.
Proof.
  revert n. induction pieces as [|piece pieces IH]; intros n.
  { exists EmptyString. by destruct n. }
  destruct n as [|n]; [by exists (join sep (piece :: pieces))|].
  destruct (IH n) as [rest Hrest].
  destruct pieces as [|piece' pieces].
  { exists EmptyString. rewrite append_nil_r. by destruct n. }
  destruct n as [|n].
  { exists (String.append sep (join sep (piece' :: pieces))). done. }
  exists rest.
  change (join sep (piece :: piece' :: pieces))
    with (String.append piece
            (String.append sep (join sep (piece' :: pieces)))).
  rewrite Hrest.
  change (take (S (S n)) (piece :: piece' :: pieces))
    with (piece :: take (S n) (piece' :: pieces)).
  change (take (S n) (piece' :: pieces)) with (piece' :: take n pieces).
  change (join sep (piece :: piece' :: take n pieces))
    with (String.append piece
            (String.append sep (join sep (piece' :: take n pieces)))).
  by rewrite !append_assoc.
Qed.

(** The movement id derived from the name of the orchestra recording is
    a prefix of that name. *)
Theorem mov_id_of_prefix (o_basename : string) :
  ∃ rest, o_basename = String.append (mov_id_of o_basename) rest.
Proof.
  unfold mov_id_of.
  destruct (join_take_prefix "_" (split "_"%char o_basename) 2)
    as [rest Hrest].
  exists rest. rewrite <- Hrest. symmetry. apply (join_split "_"%char).
Qed.

Example mov_id_of_example :
  mov_id_of "rach2_mov1_O1" = "rach2_mov1"%string.
Proof. reflexivity. Qed.

(** *** The scenario files *)

Section builtins.
Variable strip : string → string.
Variable split_whitespace : string → list string.
Variable int : string → option Z.
Variable float : string → option Q.
Variable basename : string → string.
Variable splitext_root : string → string.

Local Abbreviation parse := (parse_line strip split_whitespace int float).
Local Abbreviation step := (scenario_step strip split_whitespace int float).

Lemma scenario_fold_None (file : list string) : foldl step None file = None.
Proof. by induction file. Qed.

Lemma scenario_fold (file : list string)
    (d0 : list (string * scenario)) (sid0 : option string) :
  foldl step (Some (d0, sid0)) file
  = (parsed ← mapM parse file;
     Some (foldl (λ d kv, dict_set d kv.1 kv.2) d0 parsed,
           match parsed with
           | [] => sid0
           | _ => fst <$> last parsed
           end)).
Proof.
  revert d0 sid0. induction file as [|line file IH]; intros d0 sid0; [done|].
  csimpl. destruct (parse line) as [[sid s]|]; csimpl.
  2:{ apply scenario_fold_None. }
  rewrite IH. destruct (mapM parse file) as [parsed|]; [|done].
  csimpl. by destruct parsed.
Qed.

Lemma scenario_info_cases (infile : list string) :
  match get_scenario_info strip split_whitespace int float infile with
  | None => ∃ line, line ∈ infile ∧ parse line = None
  | Some info =>
      ∃ parsed, mapM parse infile = Some parsed ∧
        match info with
        | InfoFile sid s =>
            first_occurrences (parsed.*1) = [sid] ∧
            last parsed = Some (sid, s)
        | SummaryFile d =>
            d.*1 = first_occurrences (parsed.*1) ∧ length d ≠ 1%nat ∧
            ∀ k, dict_get d k
                 = last (snd <$> filter (λ kv, kv.1 = k) parsed)
        end
  end.
Proof.
  unfold get_scenario_info. rewrite scenario_fold.
  destruct (mapM parse infile) as [parsed|] eqn:Hm; csimpl.
  2:{ apply mapM_None, Exists_exists in Hm. done. }
  destruct (fold_dict_set_spec parsed) as [Hkeys Hget].
  set (d := foldl (λ d kv, dict_set d kv.1 kv.2) [] parsed) in *.
  destruct (Nat.eqb_spec (length d) 1) as [Hlen|Hlen].
  - destruct parsed as [|kv parsed _] using rev_ind.
    { by destruct d. }
    destruct kv as [sid s].
    assert (match parsed ++ [(sid, s)] with
            | [] => None
            | _ => fst <$> last (parsed ++ [(sid, s)])
            end = Some sid) as ->.
    { rewrite last_snoc. by destruct parsed. }
    assert (dict_get d sid = Some s) as Hs.
    { rewrite Hget, filter_app, fmap_app.
      rewrite filter_cons_True by done. rewrite filter_nil. csimpl.
      by rewrite last_snoc. }
    csimpl. rewrite Hs. csimpl. eexists. split; [done|].
    split; [|by rewrite last_snoc].
    rewrite <- Hkeys. clearbody d. clear Hget Hkeys.
    destruct d as [|[k v] [|? ?]]; simplify_eq/=.
    by case_bool_decide; simplify_eq.
  - eexists. split; [done|]. by split_and!.
Qed.


(** [get_scenario_info] raises exactly when a line does not parse.  It
    returns the dictionary of one scenario exactly when the lines name one
    scenario id, and then the fields are those of the last line.  Otherwise
    it returns a dictionary whose keys are the distinct scenario ids in the
    order of their first line, each with the fields of its last line. *)
Theorem get_scenario_info_spec (infile : list string) :
  match get_scenario_info strip split_whitespace int float infile with
  | None => ∃ line, line ∈ infile ∧ parse line = None
  | Some info =>
      ∃ parsed, mapM parse infile = Some parsed ∧
        match info with
        | InfoFile sid s =>
            first_occurrences (parsed.*1) = [sid] ∧
            last parsed = Some (sid, s)
        | SummaryFile d =>
            d.*1 = first_occurrences (parsed.*1) ∧ length d ≠ 1%nat ∧
            ∀ k, dict_get d k
                 = last (snd <$> filter (λ kv, kv.1 = k) parsed)
        end
  end.
Proof. apply scenario_info_cases. Qed.

(** [getScenarioIds] returns the distinct scenario ids of the summary file
    in the order of their first line, except when the file names exactly
    one scenario: it then returns the ten field names of that scenario's
    dictionary. *)
Theorem getScenarioIds_spec (summary_file : list string) :
  match getScenarioIds strip split_whitespace int float summary_file with
  | None => ∃ line, line ∈ summary_file ∧ parse line = None
  | Some ids =>
      ∃ parsed, mapM parse summary_file = Some parsed ∧
        ids = if decide (length (first_occurrences (parsed.*1)) = 1%nat)
              then info_keys
              else first_occurrences (parsed.*1)
  end.
Proof.
  unfold getScenarioIds.
  pose proof (scenario_info_cases summary_file) as H.
  destruct (get_scenario_info strip split_whitespace int float summary_file)
    as [[sid s|d]|]; csimpl; [| |done].
  - destruct H as (parsed & Hm & Hk & _). exists parsed. split; [done|].
    rewrite Hk. by rewrite decide_True.
  - destruct H as (parsed & Hm & Hk & Hlen & _). exists parsed.
    split; [done|]. rewrite <- Hk, length_fmap. by rewrite decide_False.
Qed.

(** [getEvalMeasureSet] returns a set exactly when the scenario file names
    one scenario id and the measure set of the movement derived from the
    orchestra path on its last line can be read. *)
Theorem getEvalMeasureSet_spec
    (scenarioInfo measures_file : list string) (measures : gset Z) :
  getEvalMeasureSet strip split_whitespace int float basename splitext_root
                    scenarioInfo measures_file = Some measures
  ↔ ∃ parsed sid s,
      mapM parse scenarioInfo = Some parsed ∧
      first_occurrences (parsed.*1) = [sid] ∧
      last parsed = Some (sid, s) ∧
      get_eval_measure_set strip int measures_file
        (mov_id_of (splitext_root (basename (o s)))) = Some measures.
Proof.
  unfold getEvalMeasureSet.
  pose proof (scenario_info_cases scenarioInfo) as H.
  destruct (get_scenario_info strip split_whitespace int float scenarioInfo)
    as [[sid s|d]|]; cbn [mbind option_bind].
  - destruct H as (parsed & Hm & Hk & Hl). split.
    + intros Hset. by exists parsed, sid, s.
    + intros (parsed' & sid' & s' & Hm' & _ & Hl' & Hset).
      rewrite Hm in Hm'. injection Hm' as <-.
      rewrite Hl in Hl'. by injection Hl' as <- <-.
  - destruct H as (parsed & Hm & Hk & Hlen & _). split; [done|].
    intros (parsed' & sid' & s' & Hm' & Hk' & _).
    rewrite Hm in Hm'. injection Hm' as <-.
    rewrite <- (length_fmap fst), Hk, Hk' in Hlen. done.
  - destruct H as (line & Hl & Hp). split; [done|].
    intros (parsed & _ & _ & Hm & _).
    apply mapM_Some_1 in Hm.
    apply list_elem_of_lookup_1 in Hl as [i Hi].
    destruct (Forall2_lookup_l _ _ _ _ _ Hm Hi) as (y & _ & Hy).
    congruence.
Qed.

Local Abbreviation sstep := (summary_step float).

Lemma summary_fold_None (rows : list (string * option string)) :
  foldl sstep None rows = None.
Proof. by induction rows. Qed.

(** A row is well formed when it has no timestamps or timestamps that
    parse; its entry in the dictionary. *)
Lemma summary_step_Some (d : gmap string (option (Q * Q)))
    (row : string * option string) :
  sstep (Some d) row
  = (e ← match row.2 with
         | None => Some None
         | Some t => Some <$> parse_timestamps float t
         end;
     Some (<[row.1 := e]> d)).
Proof.
  unfold summary_step. simpl. destruct (row.2) as [t|]; [|done].
  simpl. by destruct (parse_timestamps float t).
Qed.

Lemma summary_fold_snoc (rows : list (string * option string))
    (row : string * option string) :
  get_audio_summary_info float (rows ++ [row])
  = sstep (get_audio_summary_info float rows) row.
Proof. unfold get_audio_summary_info. by rewrite foldl_app. Qed.

Lemma audio_summary_cases (rows : list (string * option string)) :
  match get_audio_summary_info float rows with
  | Some d =>
      Forall (λ row, ∀ t, row.2 = Some t →
                          is_Some (parse_timestamps float t)) rows ∧
      ∀ id, d !! id
            = last ((λ row, t ← row.2; parse_timestamps float t)
                    <$> filter (λ row, row.1 = id) rows)
  | None =>
      ∃ row t, row ∈ rows ∧ row.2 = Some t ∧
               parse_timestamps float t = None
  end.
Proof.
  induction rows as [|[id ts] rows IH] using rev_ind.
  { split; [constructor|]. intros id. by rewrite lookup_empty. }
  rewrite summary_fold_snoc.
  destruct (get_audio_summary_info float rows) as [d|].
  2:{ destruct IH as (row & t & Hin & ? & ?). exists row, t.
      split; [|done]. apply elem_of_app. by left. }
  destruct IH as [Hall Hget]. rewrite summary_step_Some. simpl.
  destruct ts as [t|]; simpl.
  - destruct (parse_timestamps float t) as [pair|] eqn:Hp; simpl.
    + split.
      * apply Forall_app. split; [done|]. constructor; [|done].
        simpl. intros ? [= <-]. by rewrite Hp.
      * intros id'. rewrite filter_app, fmap_app.
        destruct (decide (id = id')) as [->|Hne].
        -- rewrite filter_cons_True by done. rewrite filter_nil. csimpl.
           by rewrite lookup_insert_eq, last_snoc, Hp.
        -- rewrite filter_cons_False by done. rewrite filter_nil. csimpl.
           by rewrite lookup_insert_ne, app_nil_r.
    + exists (id, Some t), t. split; [|done].
      apply elem_of_app. right. by left.
  - split.
    + apply Forall_app. split; [done|]. by constructor.
    + intros id'. rewrite filter_app, fmap_app.
      destruct (decide (id = id')) as [->|Hne].
      * rewrite filter_cons_True by done. rewrite filter_nil. csimpl.
        by rewrite lookup_insert_eq, last_snoc.
      * rewrite filter_cons_False by done. rewrite filter_nil. csimpl.
        by rewrite lookup_insert_ne, app_nil_r.
Qed.

(** [get_audio_summary_info] raises exactly when some row, of whatever
    recording, has timestamps that are not two numbers separated by one
    dash.  Otherwise a recording is in the dictionary exactly when it has a
    row, and its entry comes from its last row: the parsed pair, or [None]
    when that row has no timestamps. *)
Theorem get_audio_summary_info_spec (rows : list (string * option string)) :
  match get_audio_summary_info float rows with
  | Some d =>
      Forall (λ row, ∀ t, row.2 = Some t →
                          is_Some (parse_timestamps float t)) rows ∧
      ∀ id, d !! id
            = last ((λ row, t ← row.2; parse_timestamps float t)
                    <$> filter (λ row, row.1 = id) rows)
  | None =>
      ∃ row t, row ∈ rows ∧ row.2 = Some t ∧
               parse_timestamps float t = None
  end.
Proof. apply audio_summary_cases. Qed.

(** [get_orchestra_start_end_times] returns a pair exactly when the
    scenario file names one scenario, every row of the summary is well
    formed, and the last row of the orchestra recording of that scenario
    has timestamps, which parse to that pair. *)
Theorem get_orchestra_start_end_times_spec
    (scenario_info_file : list string)
    (rows : list (string * option string)) (times : Q * Q) :
  get_orchestra_start_end_times strip split_whitespace int float basename
    splitext_root scenario_info_file rows = Some times
  ↔ ∃ parsed sid s d,
      mapM parse scenario_info_file = Some parsed ∧
      first_occurrences (parsed.*1) = [sid] ∧
      last parsed = Some (sid, s) ∧
      get_audio_summary_info float rows = Some d ∧
      last ((λ row, t ← row.2; parse_timestamps float t)
            <$> filter (λ row, row.1 = String.append
                                 (splitext_root (basename (o s))) ".wav")
                       rows)
      = Some (Some times).
Proof.
  unfold get_orchestra_start_end_times.
  pose proof (scenario_info_cases scenario_info_file) as H.
  destruct (get_scenario_info strip split_whitespace int float
              scenario_info_file) as [[sid s|d0]|]; cbn [mbind option_bind].
  - destruct H as (parsed & Hm & Hk & Hl).
    pose proof (audio_summary_cases rows) as Ha.
    destruct (get_audio_summary_info float rows) as [d|];
      cbn [mbind option_bind].
    + destruct Ha as [_ Hget]. rewrite Hget. split.
      * intros Hentry. exists parsed, sid, s, d. split_and!; [done..|].
        destruct (last (_ <$> _)) as [[e|]|]; by simplify_eq/=.
      * intros (parsed' & sid' & s' & d' & Hm' & _ & Hl' & _ & Hlast).
        rewrite Hm in Hm'. injection Hm' as <-.
        rewrite Hl in Hl'. injection Hl' as <- <-.
        by rewrite Hlast.
    + split; [done|].
      intros (parsed' & sid' & s' & d' & _ & _ & _ & Hd' & _). done.
  - destruct H as (parsed & Hm & Hk & Hlen & _). split; [done|].
    intros (parsed' & sid' & s' & d' & Hm' & Hk' & _).
    rewrite Hm in Hm'. injection Hm' as <-.
    rewrite <- (length_fmap fst), Hk, Hk' in Hlen. done.
  - destruct H as (line & Hl & Hp). split; [done|].
    intros (parsed & _ & _ & _ & Hm & _).
    apply mapM_Some_1 in Hm.
    apply list_elem_of_lookup_1 in Hl as [i Hi].
    destruct (Forall2_lookup_l _ _ _ _ _ Hm Hi) as (y & _ & Hy).
    congruence.
Qed.

End builtins.

End ScenarioFacts.
